(** * Media Notes: transcript alignment, scroll animation and timestamp codec

    A shallow embedding of the algorithmic core of the plugin:
    - [splitIntoSentences] and [groupTranscriptIntoParagraphs]
      (components/media-frame.tsx),
    - [updateCurrentPosition] and the auto-scroll effect with its
      [animateScroll] frame callback (components/media-frame.tsx),
    - [getVideoId] and [isYouTubeUrl] (components/media-frame.tsx),
    - [formatTimestamp] and [convertTimestampToSeconds] (main.tsx),
    - [getMatchingCssForUrl], the insert-timestamp and the speed commands
      (main.tsx), [onStateChange] and the player choice of [MediaFrame]
      (components/media-frame.tsx), [normalizeWebViewOption]
      (utils/web-view-options.ts).

    Conventions.  A JavaScript [number] is a rational ([Q]) and arithmetic
    is exact; results are compared with [==].  A division is performed by
    [jsdiv], which reports a zero divisor as a fault instead of producing
    a non-finite value.  A string is a [string] of 8-bit code units; the
    white space of the regular expression class [\s] and of [trim] is the
    part of the ECMAScript set that lies in this range.  [null] and
    [undefined] are [None].  A thrown exception is a [Fault]. *)

From Stdlib Require Import List String Ascii Bool Arith ZArith QArith Qabs Qround Qminmax Lia Lqa.
From Stdlib Require Import DecimalString DecimalN Sorted.
From Equations Require Import Equations.
Import ListNotations.

Set Implicit Arguments.
Local Close Scope Q_scope.
Local Open Scope nat_scope.
Local Open Scope string_scope.
Local Open Scope list_scope.

(** ** Completions: normal results and faults *)

Inductive fault : Set :=
| DivisionByZero
| TypeError.

Inductive Res (A : Type) : Type :=
| Ok (a : A)
| Fault (e : fault).
Arguments Ok {A} a.
Arguments Fault {A} e.

Definition bind {A B} (m : Res A) (k : A -> Res B) : Res B :=
  match m with
  | Ok a => k a
  | Fault e => Fault e
  end.

Notation "x <- m ;; k" := (bind m (fun x => k))
  (at level 61, m at next level, right associativity).

(** [try { body } catch { handler }] *)
Definition try_catch {A} (body : Res A) (handler : Res A) : Res A :=
  match body with
  | Ok a => Ok a
  | Fault _ => handler
  end.

(** [a / b]; a zero divisor is a fault. *)
Definition jsdiv (a b : Q) : Res Q :=
  if Qeq_bool b 0 then Fault DivisionByZero else Ok (a / b)%Q.

Definition QofNat (n : nat) : Q := inject_Z (Z.of_nat n).

(** [array.forEach((x, index) => ...)] where the callback updates a
    captured variable of type [S]. *)
Fixpoint forEach_from {A S} (f : S -> A -> nat -> Res S)
    (l : list A) (index : nat) (st : S) : Res S :=
  match l with
  | [] => Ok st
  | x :: rest => st' <- f st x index ;; forEach_from f rest (Datatypes.S index) st'
  end.

Definition forEach {A S} (f : S -> A -> nat -> Res S) (l : list A) (st : S) : Res S :=
  forEach_from f l 0 st.

(** [array.slice(i, j)] for [0 <= i <= j]. *)
Definition slice {A} (i j : nat) (l : list A) : list A :=
  firstn (j - i) (skipn i l).

(** ** Strings *)

Module Str.

(** White space as matched by [\s] and removed by [trim]: TAB, LF, VT,
    FF, CR, SPACE and NO-BREAK SPACE. *)
Definition isSpace (c : ascii) : bool :=
  let n := nat_of_ascii c in
  ((9 <=? n)%nat && (n <=? 13)%nat) || (n =? 32)%nat || (n =? 160)%nat.

(** The class [[.!?]]. *)
Definition isTerminal (c : ascii) : bool :=
  (Ascii.eqb c ".") || (Ascii.eqb c "!") || (Ascii.eqb c "?").

Definition startsWithSpace (s : string) : bool :=
  match s with
  | EmptyString => false
  | String c _ => isSpace c
  end.

(** [s.replace(/([.!?])\s+/g, "$1|")].  The flag [skip] is set while the
    white space of a match is being consumed. *)
Fixpoint replaceEnds (skip : bool) (s : string) : string :=
  match s with
  | EmptyString => EmptyString
  | String c rest =>
      if skip && isSpace c then replaceEnds true rest
      else if isTerminal c && startsWithSpace rest
           then String c (String "|" (replaceEnds true rest))
           else String c (replaceEnds false rest)
  end.

(** [s.split(sep)] for a one-character separator. *)
Fixpoint split (sep : ascii) (s : string) : list string :=
  match s with
  | EmptyString => [EmptyString]
  | String c rest =>
      if Ascii.eqb c sep then EmptyString :: split sep rest
      else match split sep rest with
           | piece :: pieces => String c piece :: pieces
           | [] => [String c EmptyString]
           end
  end.

Fixpoint trimStart (s : string) : string :=
  match s with
  | EmptyString => EmptyString
  | String c rest => if isSpace c then trimStart rest else s
  end.

Fixpoint trimEnd (s : string) : string :=
  match s with
  | EmptyString => EmptyString
  | String c rest =>
      match trimEnd rest with
      | EmptyString => if isSpace c then EmptyString else String c EmptyString
      | r => String c r
      end
  end.

Definition trim (s : string) : string := trimEnd (trimStart s).

Fixpoint mem (c : ascii) (s : string) : bool :=
  match s with
  | EmptyString => false
  | String d rest => Ascii.eqb d c || mem c rest
  end.

Fixpoint all (p : ascii -> bool) (s : string) : bool :=
  match s with
  | EmptyString => true
  | String c rest => p c && all p rest
  end.

(** [s.includes(needle)] *)
Fixpoint includes (needle s : string) : bool :=
  String.prefix needle s ||
  match s with
  | EmptyString => false
  | String _ rest => includes needle rest
  end.


(** [s.substring(1)] *)
Definition substring1 (s : string) : string :=
  match s with
  | EmptyString => EmptyString
  | String _ rest => rest
  end.

End Str.

(** ** Transcript data *)

Module Line.
Record t : Type := mk { text : string; offset : Q; duration : Q }.
End Line.

Module Sentence.
Record t : Type :=
  mk { text : string; startOffset : Q; endOffset : Q; originalIndex : nat }.

End Sentence.

Module Paragraph.
Record t : Type :=
  mk { sentences : list Sentence.t; startOffset : Q; endOffset : Q }.
End Paragraph.

(** ** Sentence segmenter *)

Definition splitIntoSentences (text : string) : list string :=
  filter (fun s => (0 <? String.length s)%nat)
    (map Str.trim (Str.split "|" (Str.replaceEnds false text))).

(** The callback of the inner [forEach]: one sentence of a line is pushed. *)
Definition pushSentence (line : Line.t) (lineIndex : nat) (lineSentences : list string)
    (sentences : list Sentence.t) (sentenceText : string) (sentenceIndex : nat)
    : Res (list Sentence.t) :=
  sentenceDuration <- jsdiv (Line.duration line) (QofNat (List.length lineSentences)) ;;
  let sentenceStartOffset := (Line.offset line + QofNat sentenceIndex * sentenceDuration)%Q in
  Ok (sentences ++
      [Sentence.mk sentenceText sentenceStartOffset
         (sentenceStartOffset + sentenceDuration)%Q lineIndex]).

(** The callback of the outer [forEach]: the sentences of one line. *)
Definition pushLine (sentences : list Sentence.t) (line : Line.t) (lineIndex : nat)
    : Res (list Sentence.t) :=
  let lineSentences := splitIntoSentences (Line.text line) in
  forEach (pushSentence line lineIndex lineSentences) lineSentences sentences.

(** First half of [groupTranscriptIntoParagraphs]: lines to sentences. *)
Definition segmentTranscript (transcriptLines : list Line.t) : Res (list Sentence.t) :=
  forEach pushLine transcriptLines [].

(** ** Paragraph grouper *)

(** The object literal pushed by the loop body.  Reading a property of
    [paragraphSentences[0]] throws a [TypeError] when the slice is empty. *)
Definition makeParagraph (paragraphSentences : list Sentence.t) : Res Paragraph.t :=
  match nth_error paragraphSentences 0,
        nth_error paragraphSentences (List.length paragraphSentences - 1) with
  | Some first, Some last =>
      Ok (Paragraph.mk paragraphSentences
            (Sentence.startOffset first) (Sentence.endOffset last))
  | _, _ => Fault TypeError
  end.

(** [for (let i = ...; i < sentences.length; i += 3) { ... }] *)
Equations? paragraphLoop (sentences : list Sentence.t) (i : nat)
    (paragraphs : list Paragraph.t) : Res (list Paragraph.t)
    by wf (List.length sentences - i) lt :=
  paragraphLoop sentences i paragraphs with lt_dec i (List.length sentences) := {
    | right _ := Ok paragraphs
    | left _ with makeParagraph (slice i (i + 3) sentences) := {
        | Fault e := Fault e
        | Ok p := paragraphLoop sentences (i + 3) (paragraphs ++ [p]) } }.
Proof. lia. Qed.

(** Second half of [groupTranscriptIntoParagraphs]: sentences to paragraphs. *)
Definition groupSentences (sentences : list Sentence.t) : Res (list Paragraph.t) :=
  paragraphLoop sentences 0 [].

Definition groupTranscriptIntoParagraphs (transcriptLines : list Line.t)
    : Res (list Paragraph.t) :=
  sentences <- segmentTranscript transcriptLines ;;
  groupSentences sentences.

(** ** Position locator *)

(** The component state read and written by [updateCurrentPosition]. *)
Record PlayerState : Type := mkPlayerState {
  transcriptParagraphs : list Paragraph.t;
  currentTimestamp : Q;
  currentParagraphIndex : Z;
  currentSentenceIndex : Z
}.

Definition setCurrentParagraphIndex (i : Z) (st : PlayerState) : PlayerState :=
  mkPlayerState (transcriptParagraphs st) (currentTimestamp st) i (currentSentenceIndex st).

Definition setCurrentSentenceIndex (j : Z) (st : PlayerState) : PlayerState :=
  mkPlayerState (transcriptParagraphs st) (currentTimestamp st) (currentParagraphIndex st) j.

(** [currentTimeMs >= lo && currentTimeMs <= hi] *)
Definition within (currentTimeMs lo hi : Q) : bool :=
  Qle_bool lo currentTimeMs && Qle_bool currentTimeMs hi.

(** The inner loop, from index [j] on; [-1] when it ends without [break]. *)
Fixpoint findSentence (currentTimeMs : Q) (sentences : list Sentence.t) (j : Z) : Z :=
  match sentences with
  | [] => (-1)%Z
  | sentence :: rest =>
      if within currentTimeMs (Sentence.startOffset sentence) (Sentence.endOffset sentence)
      then j
      else findSentence currentTimeMs rest (j + 1)%Z
  end.

(** The outer loop, from index [i] on:
    the pair [(newParagraphIndex, newSentenceIndex)]. *)
Fixpoint findParagraph (currentTimeMs : Q) (paragraphs : list Paragraph.t) (i : Z) : Z * Z :=
  match paragraphs with
  | [] => ((-1)%Z, (-1)%Z)
  | paragraph :: rest =>
      if within currentTimeMs (Paragraph.startOffset paragraph) (Paragraph.endOffset paragraph)
      then (i, findSentence currentTimeMs (Paragraph.sentences paragraph) 0%Z)
      else findParagraph currentTimeMs rest (i + 1)%Z
  end.

Definition updateCurrentPosition (st : PlayerState) : PlayerState :=
  if (List.length (transcriptParagraphs st) =? 0)%nat then st
  else
    let currentTimeMs := (currentTimestamp st * 1000)%Q in
    let '(newParagraphIndex, newSentenceIndex) :=
      findParagraph currentTimeMs (transcriptParagraphs st) 0%Z in
    let st1 :=
      if negb (newParagraphIndex =? currentParagraphIndex st)%Z
      then setCurrentParagraphIndex newParagraphIndex st else st in
    if negb (newSentenceIndex =? currentSentenceIndex st1)%Z
    then setCurrentSentenceIndex newSentenceIndex st1 else st1.

(** The active location held by the state. *)
Definition activeLocation (st : PlayerState) : Z * Z :=
  (currentParagraphIndex st, currentSentenceIndex st).

(** ** Scroll animator *)



(** The values captured by the closure [animateScroll]. *)
Record Animation : Type := mkAnimation {
  currentScrollTop : Q;
  scrollDistance : Q
}.

Definition duration : Q := 300%Q.





(** [a > b] *)
Definition Qgt_bool (a b : Q) : bool := negb (Qle_bool a b).


Definition easeInOutQuad (t : Q) : Q :=
  if Qgt_bool (1 # 2) t then (2 * t * t)%Q else (-1 + (4 - 2 * t) * t)%Q.

(** The mutable cells the frame callback works on: its [startTime], the
    container's [scrollTop], and whether a frame callback is requested. *)
Record FrameState : Type := mkFrameState {
  startTime : option Q;
  frameScrollTop : Q;
  frameRequested : bool
}.

(** The state right after the effect has called [requestAnimationFrame]. *)
Definition animationStart (a : Animation) : FrameState :=
  mkFrameState None (currentScrollTop a) true.

Definition progressAt (start currentTime : Q) : Q :=
  Qmin ((currentTime - start) / duration) 1.

(** One invocation of [animateScroll(currentTime)]. *)
Definition animateScroll (a : Animation) (st : FrameState) (currentTime : Q) : FrameState :=
  let start := match startTime st with None => currentTime | Some t0 => t0 end in
  let progress := progressAt start currentTime in
  let easedProgress := easeInOutQuad progress in
  mkFrameState (Some start)
    (currentScrollTop a + scrollDistance a * easedProgress)%Q
    (Qgt_bool 1 progress).

(** One display refresh at time [currentTime]: the callback runs if and
    only if a frame was requested. *)
Definition frameTick (a : Animation) (st : FrameState) (currentTime : Q) : FrameState :=
  if frameRequested st then animateScroll a st currentTime else st.

Definition runFrames (a : Animation) (st : FrameState) (ticks : list Q) : FrameState :=
  fold_left (frameTick a) ticks st.

(** ** Timestamp formatter and parser *)

(** Template-literal conversion of an integral number to text: its decimal
    digits, with a minus sign when negative (the exponent notation that
    JavaScript uses from 10^21 on is not modelled). *)
Definition numberToString (z : Z) : string := NilZero.string_of_int (Z.to_int z).

Definition formatTimestamp (timestamp : option Q) : string :=
  match timestamp with
  | None => ""
  | Some timestamp =>
      let hours := Qfloor (timestamp / 3600) in
      let minutes := Qfloor ((timestamp - inject_Z hours * 3600) / 60) in
      let seconds := Qfloor (timestamp - inject_Z hours * 3600 - inject_Z minutes * 60) in
      let formattedSeconds :=
        if (seconds <? 10)%Z then ("0" ++ numberToString seconds)%string
        else numberToString seconds in
      let formattedMinutes :=
        if (minutes <? 10)%Z then ("0" ++ numberToString minutes)%string
        else numberToString minutes in
      ((if (0 <? hours)%Z then numberToString hours ++ ":" else "")
       ++ formattedMinutes ++ ":" ++ formattedSeconds)%string
  end.

(** [Number(s)] on the fragment the timestamp codec produces: white space
    is trimmed, the empty string is [0], a string of decimal digits is its
    value.  Every other string is mapped to [None], which stands for [NaN]
    and for the numeric literals outside this fragment. *)
Definition Number_of_string (s : string) : option Q :=
  match NilEmpty.uint_of_string (Str.trim s) with
  | Some d => Some (inject_Z (Z.of_N (N.of_uint d)))
  | None => None
  end.

Definition opt_add (a b : option Q) : option Q :=
  match a, b with
  | Some x, Some y => Some (x + y)%Q
  | _, _ => None
  end.

Definition opt_scale (a : option Q) (k : Q) : option Q :=
  match a with
  | Some x => Some (x * k)%Q
  | None => None
  end.

Definition convertTimestampToSeconds (timestamp : string) : option Q :=
  let timestampParts := map Number_of_string (Str.split ":" timestamp) in
  let seconds := Some 0%Q in
  match timestampParts with
  | [p0; p1; p2] =>
      let seconds := opt_add seconds (opt_scale p0 3600) in
      let seconds := opt_add seconds (opt_scale p1 60) in
      opt_add seconds p2
  | [p0; p1] =>
      let seconds := opt_add seconds (opt_scale p0 60) in
      opt_add seconds p1
  | p0 :: _ => opt_add seconds p0
  | [] => None
  end.

(** ** URL classifiers *)

Record URL : Type := mkURL {
  hostname : string;
  pathname : string;
  searchParams : list (string * string)
}.

(** [searchParams.get(name)] *)
Fixpoint searchParams_get (name : string) (params : list (string * string)) : option string :=
  match params with
  | [] => None
  | (k, v) :: rest => if String.eqb k name then Some v else searchParams_get name rest
  end.

Section Classifiers.

(** The platform's URL parser; [None] when the constructor throws. *)
Variable parseURL : string -> option URL.

Definition new_URL (url : string) : Res URL :=
  match parseURL url with
  | Some urlObj => Ok urlObj
  | None => Fault TypeError
  end.

Definition getVideoId (url : string) : Res (option string) :=
  try_catch
    (urlObj <- new_URL url ;;
     if Str.includes "youtube.com" (hostname urlObj)
        || Str.includes "youtu.be" (hostname urlObj)
     then
       if Str.includes "youtu.be" (hostname urlObj)
       then Ok (Some (Str.substring1 (pathname urlObj)))
       else Ok (searchParams_get "v" (searchParams urlObj))
     else Ok None)
    (Ok None).

Definition isYouTubeUrl (url : string) : Res bool :=
  try_catch
    (urlObj <- new_URL url ;;
     Ok (Str.includes "youtube.com" (hostname urlObj)
         || Str.includes "youtu.be" (hostname urlObj)))
    (Ok false).

End Classifiers.

(** * Definitions used in the statements *)

(** ** Segmenter and grouper *)

(** Sentence [i] of the [n] sentences of a line. *)
Definition sentenceAt (line : Line.t) (lineIndex n i : nat) (sentenceText : string)
    : Sentence.t :=
  let d := (Line.duration line / QofNat n)%Q in
  let s := (Line.offset line + QofNat i * d)%Q in
  Sentence.mk sentenceText s (s + d)%Q lineIndex.

Fixpoint sentencesFrom (line : Line.t) (lineIndex n i : nat) (texts : list string)
    : list Sentence.t :=
  match texts with
  | [] => []
  | t :: rest => sentenceAt line lineIndex n i t :: sentencesFrom line lineIndex n (S i) rest
  end.

(** The sentences one line contributes. *)
Definition sentencesOfLine (lineIndex : nat) (line : Line.t) : list Sentence.t :=
  let texts := splitIntoSentences (Line.text line) in
  sentencesFrom line lineIndex (List.length texts) 0 texts.

Fixpoint groupsFrom (lineIndex : nat) (lines : list Line.t) : list (list Sentence.t) :=
  match lines with
  | [] => []
  | line :: rest => sentencesOfLine lineIndex line :: groupsFrom (S lineIndex) rest
  end.




Definition nonEmpty (s : string) : bool := (0 <? String.length s)%nat.

(** [ceil(n / 3)] *)
Definition ceilDiv3 (n : nat) : nat := (n + 2) / 3.

(** Paragraph [p] is the group of sentences that starts at index [start]:
    it holds [sentences.slice(start, start + 3)], its start is the start of
    its first sentence and its end is the end of its last sentence. *)
Definition paragraphAt (sentences : list Sentence.t) (start : nat) (p : Paragraph.t) : Prop :=
  Paragraph.sentences p = slice start (start + 3) sentences /\
  exists first last,
    nth_error (Paragraph.sentences p) 0 = Some first /\
    nth_error (Paragraph.sentences p) (List.length (Paragraph.sentences p) - 1) = Some last /\
    Paragraph.startOffset p = Sentence.startOffset first /\
    Paragraph.endOffset p = Sentence.endOffset last.

(** ** Locator *)

(** [startOffset <= currentTimeMs <= endOffset] for a paragraph, a sentence. *)
Definition inParagraph (currentTimeMs : Q) (p : Paragraph.t) : bool :=
  within currentTimeMs (Paragraph.startOffset p) (Paragraph.endOffset p).

Definition inSentence (currentTimeMs : Q) (s : Sentence.t) : bool :=
  within currentTimeMs (Sentence.startOffset s) (Sentence.endOffset s).

Definition currentTimeMs (st : PlayerState) : Q := (currentTimestamp st * 1000)%Q.

(** Element [k] of [l] is the first one that satisfies [test]. *)
Definition firstMatch {A} (test : A -> bool) (l : list A) (k : nat) (x : A) : Prop :=
  nth_error l k = Some x /\ test x = true /\
  forall j y, j < k -> nth_error l j = Some y -> test y = false.

Definition noMatch {A} (test : A -> bool) (l : list A) : Prop :=
  forall j y, nth_error l j = Some y -> test y = false.

(** ** Timestamp format *)


Definition digitChar (d : Z) : ascii := ascii_of_nat (48 + Z.to_nat d).

(** A field padded with zeros to two digits. *)
Definition twoDigits (n : Z) : string :=
  String (digitChar (n / 10)) (String (digitChar (n mod 10)) EmptyString).

Definition isDigit (c : ascii) : bool :=
  let n := nat_of_ascii c in ((48 <=? n)%nat && (n <=? 57)%nat).

(** [H:MM:SS] when the hour count is positive, [MM:SS] otherwise, for a
    whole number of seconds. *)
Definition formatWhole (total : Z) : string :=
  let h := (total / 3600)%Z in
  let m := ((total mod 3600) / 60)%Z in
  let s := (total mod 60)%Z in
  ((if (0 <? h)%Z then numberToString h ++ ":" else "")
   ++ twoDigits m ++ ":" ++ twoDigits s)%string.

(** The padding expression of [formatTimestamp]. *)
Definition padded (n : Z) : string :=
  if (n <? 10)%Z then ("0" ++ numberToString n)%string else numberToString n.


(** * Sample inputs *)




(** Seven one-sentence captions whose intervals overlap, as automatic
    captions do: the first three cover 0..8000, the next three 6000..8000,
    the last one 8000..9000. *)
Definition overlapping : list Line.t :=
  [Line.mk "one" 0 4000; Line.mk "two" 2000 4000; Line.mk "three" 4000 4000;
   Line.mk "four" 6000 500; Line.mk "five" 6500 500; Line.mk "six" 7000 1000;
   Line.mk "seven" 8000 1000].

(** Seven one-sentence captions in time order, three of them of zero
    duration: the paragraphs are 0..5000, 5000..5000 and 5000..6000. *)
Definition zeroLength : list Line.t :=
  [Line.mk "one" 0 1000; Line.mk "two" 1000 1000; Line.mk "three" 2000 3000;
   Line.mk "four" 5000 0; Line.mk "five" 5000 0; Line.mk "six" 5000 0;
   Line.mk "seven" 5000 1000].

(** Two paragraphs of one sentence each that meet at 5000ms, and a state
    whose playback position is that instant. *)
Definition meeting : list Paragraph.t :=
  [Paragraph.mk [Sentence.mk "first" 1000 5000 0] 1000 5000;
   Paragraph.mk [Sentence.mk "second" 5000 9000 1] 5000 9000].

Definition atBoundary : PlayerState := mkPlayerState meeting 5 (-1) (-1).

(** The same paragraphs before the first one starts. *)
Definition beforeStart : PlayerState := mkPlayerState meeting (1 # 2) 0 0.

(** A state left over from an earlier transcript: no paragraphs, but the
    indices of an earlier position. *)
Definition staleState : PlayerState := mkPlayerState [] 0 2 1.





(** A stand-in for the platform parser that knows three addresses. *)
Definition sampleParser (url : string) : option URL :=
  if String.eqb url "https://youtu.be/dQw4w9WgXcQ"
  then Some (mkURL "youtu.be" "/dQw4w9WgXcQ" [])
  else if String.eqb url "https://www.youtube.com/watch?v=dQw4w9WgXcQ&t=5"
  then Some (mkURL "www.youtube.com" "/watch" [("v", "dQw4w9WgXcQ"); ("t", "5")])
  else if String.eqb url "https://example.org/watch?v=1"
  then Some (mkURL "example.org" "/watch" [("v", "1")])
  else None.

(** * Further code of the plugin *)

(** ** Style rules for web pages (main.tsx) *)

(** [c.toLowerCase()] for one code unit of the 8-bit range: the letters
    A-Z and the accented capitals U+00C0-U+00DE, the multiplication sign
    U+00D7 apart. *)
Definition lowerChar (c : ascii) : ascii :=
  let n := nat_of_ascii c in
  if ((65 <=? n)%nat && (n <=? 90)%nat)
     || ((192 <=? n)%nat && (n <=? 222)%nat && negb (n =? 215)%nat)
  then ascii_of_nat (n + 32) else c.

Fixpoint toLowerCase (s : string) : string :=
  match s with
  | EmptyString => EmptyString
  | String c rest => String (lowerChar c) (toLowerCase rest)
  end.

(** [pieces.join(sep)] *)
Fixpoint join (sep : string) (pieces : list string) : string :=
  match pieces with
  | [] => EmptyString
  | [p] => p
  | p :: rest => (p ++ sep ++ join sep rest)%string
  end.

Module CssRule.
Record t : Type := mk { url : string; css : string }.
End CssRule.

(** The line feed character and the separator [\n\n]. *)
Definition LF : ascii := ascii_of_nat 10.
Definition blankLine : string := String LF (String LF EmptyString).

(** The predicate of the [filter]:
    [rule.url.trim() && url.toLowerCase().startsWith(rule.url.toLowerCase().trim())] *)
Definition ruleApplies (url : string) (rule : CssRule.t) : bool :=
  nonEmpty (Str.trim (CssRule.url rule))
  && String.prefix (Str.trim (toLowerCase (CssRule.url rule))) (toLowerCase url).

Definition getMatchingCssForUrl (url : string) (cssRules : list CssRule.t) : string :=
  let matchingRules := filter (ruleApplies url) cssRules in
  join blankLine (map CssRule.css matchingRules).

(** The rule with its address in lower case. *)
Definition lowerRule (rule : CssRule.t) : CssRule.t :=
  CssRule.mk (toLowerCase (CssRule.url rule)) (CssRule.css rule).

Definition sampleRules : list CssRule.t :=
  [CssRule.mk "https://Example.org/docs" "nav { display: none }";
   CssRule.mk "   " "body { color: red }";
   CssRule.mk " https://example.org " "body { margin: 0 }"].

(** ** Definitions for the text of sentences *)

(** The characters of a text that are neither white space nor the
    separator of [splitIntoSentences]. *)
Fixpoint inkOf (s : string) : string :=
  match s with
  | EmptyString => EmptyString
  | String c rest =>
      if Str.isSpace c || Ascii.eqb c "|" then inkOf rest else String c (inkOf rest)
  end.

(** The strings of a list put end to end. *)
Definition flatten (l : list string) : string := fold_right String.append EmptyString l.

(** ** Definitions for transcripts in time order *)



(** The captions of a three-minute talk, in time order. *)
Definition talk : list Line.t :=
  [Line.mk "Welcome back. Today we look at proofs." 0 4000;
   Line.mk "A proof is a program!" 4000 2000;
   Line.mk "Is that surprising? Perhaps." 6500 3000;
   Line.mk "Let us begin" 9500 1500].

(** The paragraphs of [talk]: 0..6000 and 6500..11000. *)
Definition talkParagraphs : list Paragraph.t :=
  match groupTranscriptIntoParagraphs talk with
  | Ok paragraphs => paragraphs
  | Fault _ => []
  end.


(** Playback at 6 seconds, the instant the first paragraph of [talk] ends. *)
Definition talkAtSix : PlayerState := mkPlayerState talkParagraphs 6 (-1) (-1).

(** ** Definitions for the scroll animation *)

(** [x] lies between [a] and [b], whichever is the larger. *)
Definition betweenQ (a b x : Q) : Prop := (Qmin a b <= x <= Qmax a b)%Q.

(** An animation from offset 300 down to offset 0. *)
Definition upwardAnimation : Animation := mkAnimation 300 (-300).

(** ** Inserting a timestamp (main.tsx, command insert-media-timestamp) *)

(** [timestamp - offset >= 0 ? timestamp - offset : 0] *)
Definition offsetTimestamp (timestamp timestampOffsetSeconds : Q) : Q :=
  if Qle_bool 0 (timestamp - timestampOffsetSeconds)
  then (timestamp - timestampOffsetSeconds)%Q else 0%Q.

(** The text put in place of [{ts}]; [None] when the command returns at
    [if (!timestamp) return;], that is for an undefined or zero time. *)
Definition insertedTimestamp (timestamp : option Q) (timestampOffsetSeconds : Q)
    : option string :=
  match timestamp with
  | None => None
  | Some timestamp =>
      if Qeq_bool timestamp 0 then None
      else Some (formatTimestamp (Some (offsetTimestamp timestamp timestampOffsetSeconds)))
  end.

(** The value given to the [t] parameter of the link:
    [Math.floor(offsetTimestamp).toString()] *)
Definition insertedLinkSeconds (timestamp timestampOffsetSeconds : Q) : string :=
  numberToString (Qfloor (offsetTimestamp timestamp timestampOffsetSeconds)).


(** ** Playback speed (main.tsx, commands speed-up and slow-down) *)

(** [array.indexOf(x)], searched from index [i] on. *)
Fixpoint indexOf_from (x : Q) (l : list Q) (i : Z) : Z :=
  match l with
  | [] => (-1)%Z
  | y :: rest => if Qeq_bool y x then i else indexOf_from x rest (i + 1)%Z
  end.

Definition indexOf (x : Q) (l : list Q) : Z := indexOf_from x l 0.

(** [array[i]]; [None] is [undefined]. *)
Definition arrayAt (l : list Q) (i : Z) : option Q :=
  if (i <? 0)%Z then None else nth_error l (Z.to_nat i).

(** The rate the speed-up command passes to [setPlaybackRate]. *)
Definition speedUpRate (playbackRates : list Q) (currentRate : Q) : option Q :=
  let currentRateIndex := indexOf currentRate playbackRates in
  let nextRateIndex :=
    if (currentRateIndex + 1 <? Z.of_nat (List.length playbackRates))%Z
    then (currentRateIndex + 1)%Z else currentRateIndex in
  arrayAt playbackRates nextRateIndex.

(** The rate the slow-down command passes to [setPlaybackRate]. *)
Definition slowDownRate (playbackRates : list Q) (currentRate : Q) : option Q :=
  let currentRateIndex := indexOf currentRate playbackRates in
  let nextRateIndex :=
    if (0 <=? currentRateIndex - 1)%Z then (currentRateIndex - 1)%Z else 0%Z in
  arrayAt playbackRates nextRateIndex.

(** The rates the player offers. *)
Definition playerRates : list Q :=
  [(1 # 4)%Q; (1 # 2)%Q; (3 # 4)%Q; 1%Q; (5 # 4)%Q; (3 # 2)%Q; (7 # 4)%Q; 2%Q].

(** ** Polling the playback time (media-frame.tsx, onStateChange) *)

(** The timers of the window and the cells [onStateChange] works on:
    [intervalRef.current], the handles of the running intervals, the
    handle the next [setInterval] returns, [hideProgressBar], and the
    number of calls of [updateTimestamp] made directly. *)
Record Polling : Type := mkPolling {
  intervalRef : option Z;
  activeIntervals : list Z;
  nextHandle : Z;
  hideProgressBar : bool;
  timestampRequests : nat
}.

(** The component after mounting; interval handles are positive. *)
Definition initialPolling : Polling := mkPolling None [] 1 true 0.

(** Truthiness of [intervalRef.current]. *)
Definition refIsSet (ref : option Z) : bool :=
  match ref with
  | Some h => negb (h =? 0)%Z
  | None => false
  end.

(** [window.clearInterval(intervalRef.current)] *)
Definition clearInterval (ref : option Z) (active : list Z) : list Z :=
  match ref with
  | Some h => List.remove Z.eq_dec h active
  | None => active
  end.

(** One notification of the player state [state] (1 playing, 2 paused,
    0 ended, 3 buffering, ...). *)
Definition onStateChange (st : Polling) (state : Z) : Polling :=
  let st1 :=
    if (state =? 1)%Z then
      let interval := nextHandle st in
      mkPolling (Some interval) (interval :: activeIntervals st) (interval + 1)%Z
        false (S (timestampRequests st))
    else st in
  if ((state =? 2)%Z || (state =? 0)%Z) && refIsSet (intervalRef st1) then
    mkPolling (intervalRef st1) (clearInterval (intervalRef st1) (activeIntervals st1))
      (nextHandle st1) true (timestampRequests st1)
  else st1.

(** The cleanup of the effect, run when the component unmounts. *)
Definition unmountPolling (st : Polling) : Polling :=
  if refIsSet (intervalRef st) then
    mkPolling (intervalRef st) (clearInterval (intervalRef st) (activeIntervals st))
      (nextHandle st) (hideProgressBar st) (timestampRequests st)
  else st.

Definition notify (events : list Z) : Polling := fold_left onStateChange events initialPolling.

(** Numbers of "playing" and of "paused or ended" notifications. *)
Definition plays (events : list Z) : nat := count_occ Z.eq_dec events 1%Z.
Definition stops (events : list Z) : nat :=
  count_occ Z.eq_dec events 2%Z + count_occ Z.eq_dec events 0%Z.

(** No "playing" notification arrives while the player is already known
    to play; [playing] tells what is known before the events. *)
Fixpoint wellPaired (playing : bool) (events : list Z) : Prop :=
  match events with
  | [] => True
  | e :: rest =>
      if (e =? 1)%Z then playing = false /\ wellPaired true rest
      else if (e =? 2)%Z || (e =? 0)%Z then wellPaired false rest
      else wellPaired playing rest
  end.

Fixpoint playingAfter (playing : bool) (events : list Z) : bool :=
  match events with
  | [] => playing
  | e :: rest =>
      if (e =? 1)%Z then playingAfter true rest
      else if (e =? 2)%Z || (e =? 0)%Z then playingAfter false rest
      else playingAfter playing rest
  end.

(** What [onStateChange] keeps true: the running handles are distinct,
    positive and older than the next handle. *)
Definition pollingInvariant (st : Polling) : Prop :=
  NoDup (activeIntervals st) /\
  Forall (fun h => (0 < h < nextHandle st)%Z) (activeIntervals st) /\
  (0 < nextHandle st)%Z.

(** The timers match what is known about the player: one running timer,
    referenced by [intervalRef], while it plays, and none otherwise. *)
Definition pairedState (playing : bool) (st : Polling) : Prop :=
  (0 < nextHandle st)%Z /\
  if playing
  then exists h, activeIntervals st = [h] /\ intervalRef st = Some h /\ h <> 0%Z
  else activeIntervals st = [].

(** ** Options of a web view (utils/web-view-options.ts) *)

Module WebViewOption.

(** ['left' | 'center' | 'right'] *)
Inductive placement : Set := PositionLeft | PositionCenter | PositionRight.

(** [Partial<WebViewFrameOption>]: every field may be missing. *)
Record partial : Type := mkPartial {
  p_id : option string;
  p_title : option string;
  p_url : option string;
  p_profileKey : option string;
  p_position : option placement;
  p_userAgent : option string;
  p_zoomFactor : option Q;
  p_css : option string;
  p_js : option string
}.

(** The object [normalizeWebViewOption] returns: every field is set. *)
Record t : Type := mk {
  id : string;
  title : string;
  url : string;
  profileKey : string;
  position : placement;
  userAgent : string;
  zoomFactor : Q;
  css : string;
  js : string
}.

(** [value || fallback] for a string: undefined and the empty string are falsy. *)
Definition orString (value : option string) (fallback : string) : string :=
  match value with
  | Some s => if nonEmpty s then s else fallback
  | None => fallback
  end.

(** [value || fallback] for a number: undefined and zero are falsy. *)
Definition orNumber (value : option Q) (fallback : Q) : Q :=
  match value with
  | Some z => if Qeq_bool z 0 then fallback else z
  | None => fallback
  end.

Definition orPosition (value : option placement) (fallback : placement) : placement :=
  match value with
  | Some p => p
  | None => fallback
  end.

(** [normalizeWebViewOption(option)]; [randomId] is what
    [Math.random().toString(36).substring(2, 15)] gives. *)
Definition normalize (randomId : string) (option : partial) : t :=
  mk (orString (p_id option) randomId)
     (orString (p_title option) "Web Preview")
     (orString (p_url option) "about:blank")
     (orString (p_profileKey option) "default")
     (orPosition (p_position option) PositionCenter)
     (orString (p_userAgent option) "")
     (orNumber (p_zoomFactor option) 1)
     (orString (p_css option) "")
     (orString (p_js option) "").

(** A normalized option passed where a partial one is expected. *)
Definition asPartial (o : t) : partial :=
  mkPartial (Some (id o)) (Some (title o)) (Some (url o)) (Some (profileKey o))
    (Some (position o)) (Some (userAgent o)) (Some (zoomFactor o))
    (Some (css o)) (Some (js o)).

End WebViewOption.

(** ** What the media frame renders (media-frame.tsx, MediaFrame) *)


Section MediaFrame.

Variable parseURL : string -> option URL.


End MediaFrame.

(** * Properties *)

(** ** The sentence segmenter *)

Lemma QofNat_nonzero n : (1 <= n)%nat -> ~ (QofNat n == 0)%Q.
Proof.
  intros Hn H. unfold QofNat, Qeq in H. simpl in H. lia.
Qed.

Lemma jsdiv_nonzero a n :
  (1 <= n)%nat -> jsdiv a (QofNat n) = Ok (a / QofNat n)%Q.
Proof.
  intros Hn. unfold jsdiv.
  destruct (Qeq_bool (QofNat n) 0) eqn:E; [|reflexivity].
  apply Qeq_bool_iff in E. now apply QofNat_nonzero in E.
Qed.

Lemma pushSentences_from line k L texts :
  (1 <= List.length L)%nat ->
  forall i acc,
    forEach_from (pushSentence line k L) texts i acc
    = Ok (acc ++ sentencesFrom line k (List.length L) i texts).
Proof.
  intros HL. induction texts as [|t rest IH]; intros i acc; simpl.
  - now rewrite app_nil_r.
  - unfold pushSentence at 1. rewrite jsdiv_nonzero by exact HL. simpl.
    rewrite IH, <- app_assoc. reflexivity.
Qed.

Lemma pushLine_spec acc line k :
  pushLine acc line k = Ok (acc ++ sentencesOfLine k line).
Proof.
  unfold pushLine, sentencesOfLine, forEach.
  destruct (splitIntoSentences (Line.text line)) as [|t rest] eqn:E.
  - simpl. now rewrite app_nil_r.
  - apply pushSentences_from. simpl. lia.
Qed.

Lemma pushLines_from lines :
  forall k acc,
    forEach_from pushLine lines k acc = Ok (acc ++ List.concat (groupsFrom k lines)).
Proof.
  induction lines as [|line rest IH]; intros k acc; simpl.
  - now rewrite app_nil_r.
  - rewrite pushLine_spec. simpl. rewrite IH, <- app_assoc. reflexivity.
Qed.

Lemma segmentTranscript_spec lines :
  segmentTranscript lines = Ok (List.concat (groupsFrom 0 lines)).
Proof. unfold segmentTranscript, forEach. now rewrite pushLines_from. Qed.



Lemma sentencesFrom_length line k n texts :
  forall i, List.length (sentencesFrom line k n i texts) = List.length texts.
Proof. induction texts; intros i; simpl; [reflexivity | now rewrite IHtexts]. Qed.








(** *** Lines without a sentence boundary *)


Lemma split_absent sep text :
  Str.mem sep text = false -> Str.split sep text = [text].
Proof.
  induction text as [|c rest IH]; simpl; [reflexivity|].
  intros H. apply orb_false_elim in H as [Hc Hrest].
  rewrite Hc, (IH Hrest). reflexivity.
Qed.




(** ** The paragraph grouper *)

Lemma paragraphLoop_step sentences i paragraphs :
  paragraphLoop sentences i paragraphs =
  if lt_dec i (List.length sentences) then
    match makeParagraph (slice i (i + 3) sentences) with
    | Ok p => paragraphLoop sentences (i + 3) (paragraphs ++ [p])
    | Fault e => Fault e
    end
  else Ok paragraphs.
Proof.
  simp paragraphLoop.
  destruct (lt_dec i (List.length sentences)); simpl; [|reflexivity].
  destruct (makeParagraph (slice i (i + 3) sentences)); reflexivity.
Qed.

Lemma ceilDiv3_bounds n : n <= 3 * ceilDiv3 n <= n + 2.
Proof.
  unfold ceilDiv3.
  pose proof (Nat.div_mod_eq (n + 2) 3) as E.
  pose proof (Nat.mod_upper_bound (n + 2) 3 ltac:(lia)) as B.
  lia.
Qed.

Lemma ceilDiv3_step n : 1 <= n -> ceilDiv3 n = S (ceilDiv3 (n - 3)).
Proof.
  intros Hn.
  pose proof (ceilDiv3_bounds n). pose proof (ceilDiv3_bounds (n - 3)). lia.
Qed.

Lemma slice_length {A} i j (l : list A) :
  List.length (slice i j l) = Nat.min (j - i) (List.length l - i).
Proof. unfold slice. now rewrite length_firstn, length_skipn. Qed.

Lemma makeParagraph_nonempty l :
  l <> [] ->
  exists first last,
    nth_error l 0 = Some first /\
    nth_error l (List.length l - 1) = Some last /\
    makeParagraph l = Ok (Paragraph.mk l (Sentence.startOffset first) (Sentence.endOffset last)).
Proof.
  intros Hl. destruct l as [|first rest]; [congruence|].
  destruct (nth_error (first :: rest) (List.length (first :: rest) - 1)) as [last|] eqn:E.
  - exists first, last. unfold makeParagraph. rewrite E. simpl. auto.
  - apply nth_error_None in E. simpl in E. lia.
Qed.

Lemma paragraphLoop_spec n : forall sentences i paragraphs,
  List.length sentences - i <= n ->
  exists ps,
    paragraphLoop sentences i paragraphs = Ok (paragraphs ++ ps) /\
    List.length ps = ceilDiv3 (List.length sentences - i) /\
    List.concat (map Paragraph.sentences ps) = skipn i sentences /\
    forall j p, nth_error ps j = Some p -> paragraphAt sentences (i + 3 * j) p.
Proof.
  induction n as [|n IH]; intros sentences i paragraphs Hn;
    rewrite paragraphLoop_step;
    destruct (lt_dec i (List.length sentences)) as [Hlt|Hge]; try lia.
  1, 3: exists []; rewrite app_nil_r;
    replace (List.length sentences - i) with 0 by lia;
    rewrite skipn_all2 by lia;
    (split; [reflexivity|split; [reflexivity|split; [reflexivity|]]]);
    intros j p Hj; destruct j; discriminate.
  assert (Hne : slice i (i + 3) sentences <> []).
  { intros E. apply (f_equal (@List.length _)) in E.
    rewrite slice_length in E. simpl in E. lia. }
  destruct (makeParagraph_nonempty Hne) as (first & last & Hf & Hl & ->).
  set (p := Paragraph.mk _ _ _).
  destruct (IH sentences (i + 3) (paragraphs ++ [p]) ltac:(lia))
    as (ps & -> & Hlen & Hcat & Hnth).
  exists (p :: ps). rewrite <- app_assoc. split; [reflexivity|].
  split.
  { simpl. rewrite Hlen.
    rewrite (ceilDiv3_step (n := List.length sentences - i)) by lia.
    do 2 f_equal. lia. }
  split.
  { simpl. rewrite Hcat. unfold slice.
    replace (i + 3 - i) with 3 by lia.
    replace (i + 3) with (3 + i) by lia.
    rewrite <- skipn_skipn. apply firstn_skipn. }
  intros j q Hj. destruct j as [|j]; simpl in Hj.
  - injection Hj as <-. rewrite Nat.mul_0_r, Nat.add_0_r.
    split; [reflexivity|]. exists first, last. simpl. auto.
  - replace (i + 3 * S j) with (i + 3 + 3 * j) by lia. now apply Hnth.
Qed.

Lemma groupSentences_spec sentences :
  exists paragraphs,
    groupSentences sentences = Ok paragraphs /\
    List.length paragraphs = ceilDiv3 (List.length sentences) /\
    List.concat (map Paragraph.sentences paragraphs) = sentences /\
    forall k p, nth_error paragraphs k = Some p -> paragraphAt sentences (3 * k) p.
Proof.
  destruct (@paragraphLoop_spec (List.length sentences) sentences 0 [] ltac:(lia))
    as (ps & E & Hlen & Hcat & Hnth).
  exists ps. rewrite Nat.sub_0_r in Hlen. simpl in E, Hcat.
  repeat split; try assumption.
  - apply (Hnth k p H).
  - apply (Hnth k p H).
Qed.

(** C2.  For every sequence of N sentences the grouper returns ceil(N/3)
    paragraphs; paragraph k holds the sentences 3k, 3k+1, 3k+2 that exist,
    so every paragraph but the last has exactly three sentences, the last
    holds the remaining one to three, and the paragraphs' sentences put
    end to end are the input; a paragraph starts where its first sentence
    starts and ends where its last sentence ends.  No sentences give no
    paragraphs, and seven sentences give paragraphs of sizes 3, 3, 1. *)
Theorem paragraph_grouper_groups_by_three :
  (forall sentences : list Sentence.t,
     exists paragraphs,
       groupSentences sentences = Ok paragraphs /\
       List.length paragraphs = ceilDiv3 (List.length sentences) /\
       List.concat (map Paragraph.sentences paragraphs) = sentences /\
       forall k p, nth_error paragraphs k = Some p ->
         paragraphAt sentences (3 * k) p /\
         1 <= List.length (Paragraph.sentences p) <= 3 /\
         (S k < List.length paragraphs -> List.length (Paragraph.sentences p) = 3) /\
         (S k = List.length paragraphs ->
          List.length (Paragraph.sentences p) = List.length sentences - 3 * k)) /\
  groupSentences [] = Ok [] /\
  (forall s1 s2 s3 s4 s5 s6 s7 : Sentence.t,
     groupSentences [s1; s2; s3; s4; s5; s6; s7]
     = Ok [Paragraph.mk [s1; s2; s3] (Sentence.startOffset s1) (Sentence.endOffset s3);
           Paragraph.mk [s4; s5; s6] (Sentence.startOffset s4) (Sentence.endOffset s6);
           Paragraph.mk [s7] (Sentence.startOffset s7) (Sentence.endOffset s7)]).
Proof.
  split; [|split].
  - intros sentences.
    destruct (groupSentences_spec sentences) as (ps & E & Hlen & Hcat & Hnth).
    exists ps. repeat split; try assumption; try apply (Hnth k p H).
    all: pose proof (Hnth k p H) as [Hs _];
      apply (f_equal (@List.length _)) in Hs; rewrite slice_length in Hs;
      pose proof (ceilDiv3_bounds (List.length sentences));
      assert (k < List.length ps) by (apply nth_error_Some; congruence);
      lia.
  - reflexivity.
  - intros. unfold groupSentences.
    repeat (rewrite paragraphLoop_step; simpl). reflexivity.
Qed.

(** ** Division safety of the segmenter *)







(** ** The position locator *)

Lemma firstMatch_tail {A} (test : A -> bool) x l k y :
  test x = false -> firstMatch test (x :: l) (S k) y -> firstMatch test l k y.
Proof.
  intros Hx (Hn & Hy & Hbefore). repeat split; try assumption.
  intros j z Hj Hz. apply (Hbefore (S j) z); [lia|exact Hz].
Qed.

Lemma firstMatch_head_false {A} (test : A -> bool) x l k y :
  firstMatch test (x :: l) (S k) y -> test x = false.
Proof. intros (_ & _ & Hbefore). apply (Hbefore 0 x); [lia|reflexivity]. Qed.

Lemma noMatch_tail {A} (test : A -> bool) x l :
  noMatch test (x :: l) -> test x = false /\ noMatch test l.
Proof.
  intros H. split; [apply (H 0 x); reflexivity|].
  intros j y Hj. apply (H (S j) y). exact Hj.
Qed.

(** Every list has a first match or none. *)
Lemma firstMatch_or_noMatch {A} (test : A -> bool) (l : list A) :
  (exists k x, firstMatch test l k x) \/ noMatch test l.
Proof.
  induction l as [|x l IH].
  - right. intros j y Hj. destruct j; discriminate.
  - destruct (test x) eqn:Hx.
    + left. exists 0, x. repeat split; [exact Hx|]. intros j y Hj. lia.
    + destruct IH as [(k & y & Hn & Hy & Hb)|Hnone].
      * left. exists (S k), y. repeat split; try assumption.
        intros j z Hj Hz. destruct j as [|j]; simpl in Hz.
        -- now injection Hz as <-.
        -- apply (Hb j z); [lia|exact Hz].
      * right. intros j y Hj. destruct j as [|j]; simpl in Hj.
        -- now injection Hj as <-.
        -- apply (Hnone j y Hj).
Qed.

Lemma findSentence_first t sentences : forall j0 k s,
  firstMatch (inSentence t) sentences k s ->
  findSentence t sentences j0 = (j0 + Z.of_nat k)%Z.
Proof.
  induction sentences as [|x rest IH]; intros j0 k s H.
  - destruct H as (Hn & _). destruct k; discriminate.
  - destruct k as [|k]; simpl.
    + destruct H as (Hn & Hs & _). injection Hn as ->.
      unfold inSentence in Hs. rewrite Hs. lia.
    + pose proof (firstMatch_head_false H) as Hx.
      pose proof Hx as Hx'. unfold inSentence in Hx'. rewrite Hx'.
      rewrite (IH (j0 + 1)%Z k s); [lia|]. apply (firstMatch_tail Hx H).
Qed.

Lemma findSentence_none t sentences : forall j0,
  noMatch (inSentence t) sentences -> findSentence t sentences j0 = (-1)%Z.
Proof.
  induction sentences as [|x rest IH]; intros j0 H; simpl; [reflexivity|].
  apply noMatch_tail in H as [Hx Hrest].
  unfold inSentence in Hx. rewrite Hx. now apply IH.
Qed.

Lemma findParagraph_first t paragraphs : forall i0 k p,
  firstMatch (inParagraph t) paragraphs k p ->
  findParagraph t paragraphs i0
  = ((i0 + Z.of_nat k)%Z, findSentence t (Paragraph.sentences p) 0).
Proof.
  induction paragraphs as [|x rest IH]; intros i0 k p H.
  - destruct H as (Hn & _). destruct k; discriminate.
  - destruct k as [|k]; simpl.
    + destruct H as (Hn & Hp & _). injection Hn as ->.
      unfold inParagraph in Hp. rewrite Hp. f_equal. lia.
    + pose proof (firstMatch_head_false H) as Hx.
      pose proof Hx as Hx'. unfold inParagraph in Hx'. rewrite Hx'.
      rewrite (IH (i0 + 1)%Z k p); [f_equal; lia|]. apply (firstMatch_tail Hx H).
Qed.

Lemma findParagraph_none t paragraphs : forall i0,
  noMatch (inParagraph t) paragraphs ->
  findParagraph t paragraphs i0 = ((-1)%Z, (-1)%Z).
Proof.
  induction paragraphs as [|x rest IH]; intros i0 H; simpl; [reflexivity|].
  apply noMatch_tail in H as [Hx Hrest].
  unfold inParagraph in Hx. rewrite Hx. now apply IH.
Qed.

Lemma updateCurrentPosition_nonempty st :
  transcriptParagraphs st <> [] ->
  activeLocation (updateCurrentPosition st)
  = findParagraph (currentTimeMs st) (transcriptParagraphs st) 0.
Proof.
  intros Hne. unfold updateCurrentPosition, activeLocation, currentTimeMs.
  destruct (transcriptParagraphs st) as [|p ps] eqn:E; [congruence|].
  cbn [List.length Nat.eqb].
  destruct (findParagraph (currentTimestamp st * 1000) (p :: ps) 0) as [np ns].
  destruct (np =? currentParagraphIndex st)%Z eqn:Ep; simpl;
    destruct (ns =? currentSentenceIndex st)%Z eqn:Es; simpl;
    try apply Z.eqb_eq in Ep; try apply Z.eqb_eq in Es; congruence.
Qed.

Lemma updateCurrentPosition_empty st :
  transcriptParagraphs st = [] -> updateCurrentPosition st = st.
Proof. intros E. unfold updateCurrentPosition. now rewrite E. Qed.

Lemma firstMatch_before {A} (test : A -> bool) (l : list A) k x :
  nth_error l k = Some x -> test x = true ->
  exists k' x', k' <= k /\ firstMatch test l k' x'.
Proof.
  intros Hn Hx.
  destruct (firstMatch_or_noMatch test l) as [(k' & x' & H)|Hnone].
  - exists k', x'. split; [|exact H].
    destruct (le_lt_dec k' k) as [Hle|Hlt]; [exact Hle|].
    destruct H as (_ & _ & Hb). rewrite (Hb k x Hlt Hn) in Hx. discriminate.
  - rewrite (Hnone k x Hn) in Hx. discriminate.
Qed.

Lemma within_at_end t lo hi :
  (lo <= hi)%Q -> (t == hi)%Q -> within t lo hi = true.
Proof.
  intros Hle Ht. unfold within. apply andb_true_intro.
  split; apply Qle_bool_iff; rewrite Ht; [exact Hle|apply Qle_refl].
Qed.

Lemma firstMatch_nonempty {A} (test : A -> bool) (l : list A) k x :
  firstMatch test l k x -> l <> [].
Proof. intros (Hn & _) ->. destruct k; discriminate. Qed.

Lemma located_paragraph st k p :
  firstMatch (inParagraph (currentTimeMs st)) (transcriptParagraphs st) k p ->
  activeLocation (updateCurrentPosition st)
  = (Z.of_nat k, findSentence (currentTimeMs st) (Paragraph.sentences p) 0).
Proof.
  intros H. rewrite updateCurrentPosition_nonempty by apply (firstMatch_nonempty H).
  now rewrite (findParagraph_first 0 H).
Qed.

(** C3 (amended).  The locator selects the first paragraph whose inclusive
    range contains the current time and, within it, the first such
    sentence.  At a boundary shared by the end of paragraph k and the start
    of paragraph k+1 (paragraph k being a proper interval) it selects a
    paragraph of index at most k, never k+1, and it selects paragraph k
    when no earlier paragraph contains that instant; the same holds for two
    adjacent sentences of the selected paragraph. *)
Theorem locator_first_match_wins :
  (forall st k p,
     firstMatch (inParagraph (currentTimeMs st)) (transcriptParagraphs st) k p ->
     currentParagraphIndex (updateCurrentPosition st) = Z.of_nat k /\
     (forall j s,
        firstMatch (inSentence (currentTimeMs st)) (Paragraph.sentences p) j s ->
        currentSentenceIndex (updateCurrentPosition st) = Z.of_nat j) /\
     (forall j s s',
        nth_error (Paragraph.sentences p) j = Some s ->
        nth_error (Paragraph.sentences p) (S j) = Some s' ->
        (Sentence.startOffset s <= Sentence.endOffset s)%Q ->
        (currentTimeMs st == Sentence.endOffset s)%Q ->
        (currentTimeMs st == Sentence.startOffset s')%Q ->
        (0 <= currentSentenceIndex (updateCurrentPosition st) <= Z.of_nat j)%Z /\
        ((forall i y, i < j -> nth_error (Paragraph.sentences p) i = Some y ->
                      inSentence (currentTimeMs st) y = false) ->
         currentSentenceIndex (updateCurrentPosition st) = Z.of_nat j))) /\
  (forall st k pk pk1,
     nth_error (transcriptParagraphs st) k = Some pk ->
     nth_error (transcriptParagraphs st) (S k) = Some pk1 ->
     (Paragraph.startOffset pk <= Paragraph.endOffset pk)%Q ->
     (currentTimeMs st == Paragraph.endOffset pk)%Q ->
     (currentTimeMs st == Paragraph.startOffset pk1)%Q ->
     (0 <= currentParagraphIndex (updateCurrentPosition st) <= Z.of_nat k)%Z /\
     ((forall i y, i < k -> nth_error (transcriptParagraphs st) i = Some y ->
                   inParagraph (currentTimeMs st) y = false) ->
      currentParagraphIndex (updateCurrentPosition st) = Z.of_nat k)).
Proof.
  split.
  - intros st k p H. pose proof (located_paragraph H) as E.
    unfold activeLocation in E. injection E as Ep Es.
    split; [exact Ep|]. split.
    + intros j s Hs. rewrite Es, (findSentence_first 0 Hs). lia.
    + intros j s s' Hj Hj' Hle Hend Hstart.
      assert (Hin : inSentence (currentTimeMs st) s = true)
        by (apply within_at_end; assumption).
      split.
      * destruct (@firstMatch_before _ (inSentence (currentTimeMs st)) _ _ _ Hj Hin) as (j' & y & Hle' & Hfirst).
        rewrite Es, (findSentence_first 0 Hfirst). lia.
      * intros Hbefore. rewrite Es.
        rewrite (@findSentence_first _ _ 0%Z j s); [lia|].
        repeat split; assumption.
  - intros st k pk pk1 Hk Hk1 Hle Hend Hstart.
    assert (Hin : inParagraph (currentTimeMs st) pk = true)
      by (apply within_at_end; assumption).
    split.
    + destruct (@firstMatch_before _ (inParagraph (currentTimeMs st)) _ _ _ Hk Hin) as (k' & y & Hle' & Hfirst).
      pose proof (located_paragraph Hfirst) as E.
      unfold activeLocation in E. injection E as Ep _. lia.
    + intros Hbefore.
      assert (Hfirst : firstMatch (inParagraph (currentTimeMs st))
                         (transcriptParagraphs st) k pk)
        by (repeat split; assumption).
      pose proof (located_paragraph Hfirst) as E.
      unfold activeLocation in E. now injection E as Ep _.
Qed.

(** C3 as stated fails.  With the overlapping captions, 8000ms is the end
    of paragraph 1 and the start of paragraph 2, and the locator selects
    paragraph 0, which contains that instant too.  With the captions of
    zero duration, which are in time order, 5000ms is the end of
    paragraph 1 and the start of paragraph 2, and the locator selects
    paragraph 0, which ends at that instant. *)
Lemma shared_boundary_not_always_paragraph_k :
  (exists paragraphs p1 p2,
     groupTranscriptIntoParagraphs overlapping = Ok paragraphs /\
     nth_error paragraphs 1 = Some p1 /\
     nth_error paragraphs 2 = Some p2 /\
     (currentTimeMs (mkPlayerState paragraphs 8 (-1) (-1)) == Paragraph.endOffset p1)%Q /\
     (currentTimeMs (mkPlayerState paragraphs 8 (-1) (-1)) == Paragraph.startOffset p2)%Q /\
     activeLocation (updateCurrentPosition (mkPlayerState paragraphs 8 (-1) (-1)))
     = (0%Z, 2%Z)) /\
  (exists paragraphs p1 p2,
     groupTranscriptIntoParagraphs zeroLength = Ok paragraphs /\
     nth_error paragraphs 1 = Some p1 /\
     nth_error paragraphs 2 = Some p2 /\
     (currentTimeMs (mkPlayerState paragraphs 5 (-1) (-1)) == Paragraph.endOffset p1)%Q /\
     (currentTimeMs (mkPlayerState paragraphs 5 (-1) (-1)) == Paragraph.startOffset p2)%Q /\
     activeLocation (updateCurrentPosition (mkPlayerState paragraphs 5 (-1) (-1)))
     = (0%Z, 2%Z)).
Proof.
  split.
  - eexists _, _, _. split; [vm_compute; reflexivity|].
    split; [reflexivity|]. split; [reflexivity|]. repeat split.
  - eexists _, _, _. split; [vm_compute; reflexivity|].
    split; [reflexivity|]. split; [reflexivity|]. repeat split.
Qed.

Lemma locator_first_match_wins_witness :
  currentParagraphIndex (updateCurrentPosition atBoundary) = 0%Z.
Proof.
  apply (proj2 (proj2 locator_first_match_wins atBoundary 0
                  (Paragraph.mk [Sentence.mk "first" 1000 5000 0] 1000 5000)
                  (Paragraph.mk [Sentence.mk "second" 5000 9000 1] 5000 9000)
                  eq_refl eq_refl ltac:(discriminate) ltac:(reflexivity)
                  ltac:(reflexivity))).
  intros i y Hi. lia.
Defined.

(** C4 (amended).  For a non-empty paragraph sequence none of whose ranges
    contains the current time the locator sets the active location to
    (-1, -1); when a paragraph is selected and none of its sentences
    contains the current time, the paragraph index is set and the sentence
    index is -1.  For the empty sequence the locator returns at once and
    leaves the state as it is. *)
Theorem locator_no_match :
  (forall st,
     transcriptParagraphs st <> [] ->
     noMatch (inParagraph (currentTimeMs st)) (transcriptParagraphs st) ->
     activeLocation (updateCurrentPosition st) = ((-1)%Z, (-1)%Z)) /\
  (forall st k p,
     firstMatch (inParagraph (currentTimeMs st)) (transcriptParagraphs st) k p ->
     noMatch (inSentence (currentTimeMs st)) (Paragraph.sentences p) ->
     activeLocation (updateCurrentPosition st) = (Z.of_nat k, (-1)%Z)) /\
  (forall st, transcriptParagraphs st = [] -> updateCurrentPosition st = st).
Proof.
  repeat apply conj.
  - intros st Hne Hnone. rewrite updateCurrentPosition_nonempty by exact Hne.
    now apply findParagraph_none.
  - intros st k p H Hnone. rewrite (located_paragraph H).
    now rewrite findSentence_none.
  - apply updateCurrentPosition_empty.
Qed.

(** C4 as stated fails on the empty paragraph sequence: every instant is
    outside every range, and the stale location (2, 1) is kept. *)
Lemma locator_no_match_witness :
  activeLocation (updateCurrentPosition beforeStart) = ((-1)%Z, (-1)%Z).
Proof.
  apply (proj1 locator_no_match beforeStart); [discriminate|].
  intros j y Hj. destruct j as [|[|j]]; simpl in Hj.
  - injection Hj as <-. reflexivity.
  - injection Hj as <-. reflexivity.
  - destruct j; discriminate.
Defined.

Lemma empty_sequence_keeps_location :
  noMatch (inParagraph (currentTimeMs staleState)) (transcriptParagraphs staleState) /\
  activeLocation (updateCurrentPosition staleState) = (2%Z, 1%Z).
Proof.
  split; [|reflexivity]. intros j y Hj. destruct j; discriminate.
Qed.

(** ** The timestamp formatter and parser *)

Lemma Qfloor_unique x z :
  (inject_Z z <= x)%Q -> (x < inject_Z (z + 1))%Q -> Qfloor x = z.
Proof.
  intros Hlo Hhi.
  pose proof (Qfloor_le x) as Flo. pose proof (Qlt_floor x) as Fhi.
  assert (Qfloor x < z + 1)%Z by (rewrite Zlt_Qlt; lra).
  assert (z < Qfloor x + 1)%Z by (rewrite Zlt_Qlt; lra).
  lia.
Qed.

Lemma Qfloor_sub_Z q k : Qfloor (q - inject_Z k) = (Qfloor q - k)%Z.
Proof.
  apply Qfloor_unique.
  - unfold Z.sub. rewrite inject_Z_plus, inject_Z_opp.
    pose proof (Qfloor_le q). lra.
  - replace (Qfloor q - k + 1)%Z with ((Qfloor q + 1) + - k)%Z by lia.
    rewrite inject_Z_plus, inject_Z_opp.
    pose proof (Qlt_floor q). lra.
Qed.

Lemma Qfloor_div_pos q (d : positive) :
  Qfloor (q / inject_Z (Zpos d)) = (Qfloor q / Zpos d)%Z.
Proof.
  assert (Hd : (0 < inject_Z (Zpos d))%Q)
    by (change 0%Q with (inject_Z 0); rewrite <- Zlt_Qlt; lia).
  pose proof (Z.div_mod (Qfloor q) (Zpos d) ltac:(lia)) as E.
  pose proof (Z.mod_pos_bound (Qfloor q) (Zpos d) ltac:(lia)) as B.
  apply Qfloor_unique.
  - apply Qle_shift_div_l; [exact Hd|].
    rewrite <- inject_Z_mult. apply Qle_trans with (inject_Z (Qfloor q)).
    + rewrite <- Zle_Qle. nia.
    + apply Qfloor_le.
  - apply Qlt_shift_div_r; [exact Hd|].
    rewrite <- inject_Z_mult. apply Qlt_le_trans with (inject_Z (Qfloor q + 1)).
    + apply Qlt_floor.
    + rewrite <- Zle_Qle. nia.
Qed.

(** The three fields computed by [formatTimestamp], in terms of the floor. *)
Lemma formatTimestamp_fields ts :
  let F := Qfloor ts in
  let hours := Qfloor (ts / 3600) in
  let minutes := Qfloor ((ts - inject_Z hours * 3600) / 60) in
  let seconds := Qfloor (ts - inject_Z hours * 3600 - inject_Z minutes * 60) in
  hours = (F / 3600)%Z /\ minutes = ((F mod 3600) / 60)%Z /\ seconds = (F mod 60)%Z.
Proof.
  intros F hours minutes seconds.
  assert (Hh : hours = (F / 3600)%Z) by apply (Qfloor_div_pos ts 3600).
  assert (Hm : minutes = ((F - hours * 3600) / 60)%Z).
  { unfold minutes.
    rewrite (Qfloor_div_pos _ 60).
    rewrite (Qfloor_comp _ (ts - inject_Z (hours * 3600))%Q)
      by (rewrite inject_Z_mult; reflexivity).
    now rewrite Qfloor_sub_Z. }
  assert (Hs : seconds = (F - hours * 3600 - minutes * 60)%Z).
  { unfold seconds.
    rewrite (Qfloor_comp _ (ts - inject_Z (hours * 3600 + minutes * 60))%Q)
      by (rewrite inject_Z_plus, !inject_Z_mult; ring).
    rewrite Qfloor_sub_Z. fold F. lia. }
  pose proof (Z.div_mod F 3600 ltac:(lia)) as E1.
  assert (Hrem : (F - hours * 3600 = F mod 3600)%Z) by lia.
  split; [exact Hh|]. split; [now rewrite Hm, Hrem|].
  rewrite Hs, Hm, Hrem.
  pose proof (Z.div_mod (F mod 3600) 60 ltac:(lia)) as E2.
  assert (((F mod 3600) mod 60 = F mod 60)%Z)
    by (apply Z.mod_mod_divide; exists 60%Z; reflexivity).
  lia.
Qed.

Lemma padded_twoDigits n : (0 <= n < 60)%Z -> padded n = twoDigits n.
Proof.
  intros Hn.
  assert (Hall : forallb (fun k => String.eqb (padded (Z.of_nat k)) (twoDigits (Z.of_nat k)))
                   (seq 0 60) = true) by (vm_compute; reflexivity).
  rewrite forallb_forall in Hall.
  specialize (Hall (Z.to_nat n)). rewrite Z2Nat.id in Hall by lia.
  apply String.eqb_eq, Hall, in_seq. lia.
Qed.

Lemma formatTimestamp_floor ts :
  formatTimestamp (Some ts) = formatWhole (Qfloor ts).
Proof.
  destruct (formatTimestamp_fields ts) as (Hh & Hm & Hs).
  cbv zeta in Hh, Hm, Hs.
  unfold formatTimestamp, formatWhole. cbv zeta.
  rewrite Hs. rewrite Hm. rewrite Hh.
  fold (padded (Qfloor ts mod 60)). fold (padded (Qfloor ts mod 3600 / 60)).
  pose proof (Z.mod_pos_bound (Qfloor ts) 3600 ltac:(lia)).
  pose proof (Z.mod_pos_bound (Qfloor ts) 60 ltac:(lia)).
  rewrite !padded_twoDigits; [reflexivity|try lia..].
  split; [apply Z.div_pos; lia|apply Z.div_lt_upper_bound; lia].
Qed.


(** *** Decimal text of a number *)

Lemma string_of_uint_digits d : Str.all isDigit (NilEmpty.string_of_uint d) = true.
Proof. induction d; simpl; try rewrite IHd; reflexivity. Qed.



Lemma numberToString_pos p :
  numberToString (Zpos p) = NilEmpty.string_of_uint (Pos.to_uint p).
Proof.
  unfold numberToString. simpl. unfold NilZero.string_of_uint.
  pose proof (DecimalPos.Unsigned.to_uint_nonnil p).
  destruct (Pos.to_uint p); congruence.
Qed.

Lemma numberToString_digits z : (0 <= z)%Z -> Str.all isDigit (numberToString z) = true.
Proof.
  intros Hz. destruct z as [|p|p]; [reflexivity| |lia].
  rewrite numberToString_pos. apply string_of_uint_digits.
Qed.


Lemma all_digits_no_space s : Str.all isDigit s = true -> Str.trim s = s.
Proof.
  intros H. unfold Str.trim.
  assert (Hs : Str.trimStart s = s).
  { destruct s as [|c rest]; [reflexivity|]. simpl in *.
    apply andb_prop in H as [Hc _].
    replace (Str.isSpace c) with false; [reflexivity|].
    destruct c as [[] [] [] [] [] [] [] []]; try discriminate Hc; reflexivity. }
  rewrite Hs. induction s as [|c rest IH]; [reflexivity|]. simpl in *.
  apply andb_prop in H as [Hc Hrest].
  rewrite IH; [|exact Hrest|].
  - destruct rest; [|reflexivity].
    replace (Str.isSpace c) with false; [reflexivity|].
    destruct c as [[] [] [] [] [] [] [] []]; try discriminate Hc; reflexivity.
  - destruct rest as [|c' rest']; [reflexivity|]. simpl in *.
    apply andb_prop in Hrest as [Hc' _].
    replace (Str.isSpace c') with false; [reflexivity|].
    destruct c' as [[] [] [] [] [] [] [] []]; try discriminate Hc'; reflexivity.
Qed.

Lemma Number_of_numberToString z :
  (0 <= z)%Z -> Number_of_string (numberToString z) = Some (inject_Z z).
Proof.
  intros Hz. unfold Number_of_string.
  rewrite all_digits_no_space by now apply numberToString_digits.
  destruct z as [|p|p]; [reflexivity| |lia].
  rewrite numberToString_pos, NilEmpty.usu.
  change (N.of_uint (Pos.to_uint p)) with (Pos.of_uint (Pos.to_uint p)).
  now rewrite DecimalPos.Unsigned.of_to.
Qed.

Lemma Number_of_twoDigits n :
  (0 <= n < 60)%Z -> Number_of_string (twoDigits n) = Some (inject_Z n).
Proof.
  intros Hn.
  assert (Hall : forallb (fun k =>
                   match Number_of_string (twoDigits (Z.of_nat k)) with
                   | Some (Qmake a b) => (a =? Z.of_nat k)%Z && (b =? 1)%positive
                   | None => false
                   end) (seq 0 60) = true) by (vm_compute; reflexivity).
  rewrite forallb_forall in Hall.
  specialize (Hall (Z.to_nat n)). rewrite Z2Nat.id in Hall by lia.
  destruct (Number_of_string (twoDigits n)) as [[a b]|].
  - assert (Hin : In (Z.to_nat n) (seq 0 60)) by (apply in_seq; lia).
    apply Hall, andb_prop in Hin as [Ha Hb].
    apply Z.eqb_eq in Ha. apply Pos.eqb_eq in Hb. now subst.
  - assert (Hin : In (Z.to_nat n) (seq 0 60)) by (apply in_seq; lia).
    apply Hall in Hin. discriminate.
Qed.

(** *** Splitting at colons *)

Lemma split_app sep a b :
  Str.mem sep a = false ->
  Str.split sep (a ++ String sep b)%string = a :: Str.split sep b.
Proof.
  induction a as [|c a IH]; simpl.
  - intros _. now rewrite Ascii.eqb_refl.
  - intros H. apply orb_false_elim in H as [Hc Ha].
    rewrite Hc, (IH Ha). reflexivity.
Qed.

Lemma digits_no_colon s : Str.all isDigit s = true -> Str.mem ":" s = false.
Proof.
  induction s as [|c s IH]; simpl; [reflexivity|].
  intros H. apply andb_prop in H as [Hc Hs]. rewrite (IH Hs), orb_false_r.
  destruct c as [[] [] [] [] [] [] [] []]; try discriminate Hc; reflexivity.
Qed.

Lemma twoDigits_digits n : (0 <= n < 60)%Z -> Str.all isDigit (twoDigits n) = true.
Proof.
  intros Hn.
  assert (Hall : forallb (fun k => Str.all isDigit (twoDigits (Z.of_nat k)))
                   (seq 0 60) = true) by (vm_compute; reflexivity).
  rewrite forallb_forall in Hall.
  specialize (Hall (Z.to_nat n)). rewrite Z2Nat.id in Hall by lia.
  apply Hall, in_seq. lia.
Qed.

Lemma append_assoc_colon a b : ((a ++ ":") ++ b)%string = (a ++ String ":" b)%string.
Proof. induction a as [|c a IH]; simpl; [reflexivity|now rewrite IH]. Qed.

(** The parts the parser sees in a formatted timestamp. *)
Lemma split_formatWhole total :
  (0 <= total)%Z ->
  let h := (total / 3600)%Z in
  let m := ((total mod 3600) / 60)%Z in
  let s := (total mod 60)%Z in
  Str.split ":" (formatWhole total)
  = if (0 <? h)%Z then [numberToString h; twoDigits m; twoDigits s]
    else [twoDigits m; twoDigits s].
Proof.
  intros Ht h m s.
  assert (Hm : (0 <= m < 60)%Z).
  { pose proof (Z.mod_pos_bound total 3600 ltac:(lia)). unfold m.
    split; [apply Z.div_pos; lia|apply Z.div_lt_upper_bound; lia]. }
  assert (Hs : (0 <= s < 60)%Z) by (apply Z.mod_pos_bound; lia).
  assert (Hh : (0 <= h)%Z) by (apply Z.div_pos; lia).
  unfold formatWhole. fold h m s.
  assert (Htail : Str.split ":" (twoDigits m ++ String ":" (twoDigits s))%string
                  = [twoDigits m; twoDigits s]).
  { rewrite split_app by (apply digits_no_colon, twoDigits_digits, Hm).
    rewrite split_absent by (apply digits_no_colon, twoDigits_digits, Hs).
    reflexivity. }
  destruct (0 <? h)%Z.
  - rewrite append_assoc_colon.
    rewrite split_app by (apply digits_no_colon, numberToString_digits, Hh).
    f_equal. exact Htail.
  - exact Htail.
Qed.

Lemma convert_formatWhole total :
  (0 <= total)%Z ->
  exists q, convertTimestampToSeconds (formatWhole total) = Some q /\
            (q == inject_Z total)%Q.
Proof.
  intros Ht. unfold convertTimestampToSeconds.
  rewrite (split_formatWhole Ht).
  set (h := (total / 3600)%Z). set (m := ((total mod 3600) / 60)%Z).
  set (s := (total mod 60)%Z).
  assert (Hm : (0 <= m < 60)%Z).
  { pose proof (Z.mod_pos_bound total 3600 ltac:(lia)). unfold m.
    split; [apply Z.div_pos; lia|apply Z.div_lt_upper_bound; lia]. }
  assert (Hs : (0 <= s < 60)%Z) by (apply Z.mod_pos_bound; lia).
  assert (Hh : (0 <= h)%Z) by (apply Z.div_pos; lia).
  assert (Hsum : (total = h * 3600 + m * 60 + s)%Z).
  { pose proof (Z.div_mod total 3600 ltac:(lia)) as E1.
    pose proof (Z.div_mod (total mod 3600) 60 ltac:(lia)) as E2.
    assert (((total mod 3600) mod 60 = total mod 60)%Z)
      by (apply Z.mod_mod_divide; exists 60%Z; reflexivity).
    unfold h, m, s. lia. }
  destruct (0 <? h)%Z eqn:Hpos; cbn [map].
  - rewrite (Number_of_numberToString Hh), !Number_of_twoDigits by assumption.
    eexists. split; [reflexivity|].
    rewrite Hsum, !inject_Z_plus, !inject_Z_mult. ring.
  - rewrite !Number_of_twoDigits by assumption.
    eexists. split; [reflexivity|].
    apply Z.ltb_ge in Hpos. assert (Hz : h = 0%Z) by lia.
    rewrite Hsum, Hz, !inject_Z_plus, !inject_Z_mult. ring.
Qed.






(** ** The scroll animator *)

Lemma Qgt_bool_true a b : Qgt_bool a b = true <-> (b < a)%Q.
Proof.
  unfold Qgt_bool. rewrite negb_true_iff. split.
  - intros H. apply Qnot_le_lt. intros Hle. apply Qle_bool_iff in Hle. congruence.
  - intros H. destruct (Qle_bool a b) eqn:E; [|reflexivity].
    apply Qle_bool_iff in E. lra.
Qed.

Lemma Qgt_bool_false a b : Qgt_bool a b = false <-> (a <= b)%Q.
Proof.
  unfold Qgt_bool. rewrite negb_false_iff. apply Qle_bool_iff.
Qed.







(** *** The frame callback *)

Lemma easeInOutQuad_formula p :
  easeInOutQuad p
  = if Qlt_le_dec p (1 # 2) then (2 * p * p)%Q else (-1 + (4 - 2 * p) * p)%Q.
Proof.
  unfold easeInOutQuad.
  destruct (Qlt_le_dec p (1 # 2)) as [Hlt|Hge].
  - apply Qgt_bool_true in Hlt. now rewrite Hlt.
  - apply Qgt_bool_false in Hge. now rewrite Hge.
Qed.



Lemma progress_before t0 u : (u - t0 < duration)%Q -> (progressAt t0 u < 1)%Q.
Proof.
  intros H. unfold progressAt.
  apply Qle_lt_trans with ((u - t0) / duration)%Q; [apply Q.le_min_l|].
  apply Qlt_shift_div_r; [reflexivity|]. unfold duration in *. lra.
Qed.



Lemma runFrames_running a t0 early : forall st,
  startTime st = Some t0 ->
  frameRequested st = true ->
  Forall (fun u => (u - t0 < duration)%Q) early ->
  startTime (runFrames a st early) = Some t0 /\
  frameRequested (runFrames a st early) = true.
Proof.
  induction early as [|u rest IH]; intros st Hs Hr Hall; simpl; [auto|].
  inversion Hall as [|? ? Hu Hrest]; subst.
  apply IH; [| |exact Hrest].
  - unfold frameTick. rewrite Hr. unfold animateScroll. now rewrite Hs.
  - unfold frameTick. rewrite Hr. unfold animateScroll. rewrite Hs. simpl.
    apply Qgt_bool_true. now apply progress_before.
Qed.

Lemma runFrames_app a st xs ys :
  runFrames a st (xs ++ ys) = runFrames a (runFrames a st xs) ys.
Proof. apply fold_left_app. Qed.



(** ** The URL classifiers *)

Lemma searchParams_get_absent name params :
  (forall k v, In (k, v) params -> k <> name) -> searchParams_get name params = None.
Proof.
  induction params as [|[k v] rest IH]; intros H; simpl; [reflexivity|].
  destruct (String.eqb k name) eqn:E.
  - apply String.eqb_eq in E. exfalso. apply (H k v); [now left|exact E].
  - apply IH. intros k' v' Hin. apply (H k' v'). now right.
Qed.

(** C10.  With any URL parser, [getVideoId] and [isYouTubeUrl] return
    normally on every string.  When the string does not parse they return
    null and false.  When it parses, [isYouTubeUrl] tells whether the host
    name contains "youtube.com" or "youtu.be"; [getVideoId] returns null
    when it contains neither, the path without its first character (its
    leading slash) when it contains "youtu.be", and otherwise the value of
    the query parameter "v", which is null when there is none. *)
Theorem url_classifiers_total :
  forall (parseURL : string -> option URL) (url : string),
    (exists id, getVideoId parseURL url = Ok id) /\
    (exists b, isYouTubeUrl parseURL url = Ok b) /\
    (parseURL url = None ->
     getVideoId parseURL url = Ok None /\ isYouTubeUrl parseURL url = Ok false) /\
    (forall urlObj,
       parseURL url = Some urlObj ->
       let youtube := Str.includes "youtube.com" (hostname urlObj) in
       let short := Str.includes "youtu.be" (hostname urlObj) in
       isYouTubeUrl parseURL url = Ok (youtube || short) /\
       (youtube = false -> short = false -> getVideoId parseURL url = Ok None) /\
       (short = true ->
        getVideoId parseURL url = Ok (Some (Str.substring1 (pathname urlObj))) /\
        forall rest, pathname urlObj = String "/" rest ->
                     getVideoId parseURL url = Ok (Some rest)) /\
       (short = false -> youtube = true ->
        getVideoId parseURL url = Ok (searchParams_get "v" (searchParams urlObj)) /\
        ((forall k v, In (k, v) (searchParams urlObj) -> k <> "v") ->
         getVideoId parseURL url = Ok None))).
Proof.
  intros parseURL url.
  unfold getVideoId, isYouTubeUrl, new_URL.
  destruct (parseURL url) as [urlObj|] eqn:E; simpl.
  - destruct (Str.includes "youtube.com" (hostname urlObj)) eqn:Hy;
      destruct (Str.includes "youtu.be" (hostname urlObj)) eqn:Hs; simpl;
      (split; [eexists; reflexivity|]); (split; [eexists; reflexivity|]);
      (split; [discriminate|]); intros u Hu; injection Hu as <-;
      rewrite Hy, Hs; simpl;
      (split; [reflexivity|]); (split; [try discriminate; reflexivity|]);
      (split; [try discriminate|try discriminate]).
    all: try (intros _; split; [reflexivity|intros rest ->; reflexivity]).
    intros _ _. split; [reflexivity|].
    intros Habs. now rewrite searchParams_get_absent.
  - split; [eexists; reflexivity|]. split; [eexists; reflexivity|].
    split; [auto|discriminate].
Qed.

Lemma url_classifiers_total_witness :
  getVideoId sampleParser "https://youtu.be/dQw4w9WgXcQ" = Ok (Some "dQw4w9WgXcQ") /\
  getVideoId sampleParser "not a url" = Ok None /\
  isYouTubeUrl sampleParser "not a url" = Ok false.
Proof.
  pose proof (url_classifiers_total sampleParser "https://youtu.be/dQw4w9WgXcQ")
    as (_ & _ & _ & Hparsed).
  pose proof (url_classifiers_total sampleParser "not a url") as (_ & _ & Hbad & _).
  destruct (Hparsed (mkURL "youtu.be" "/dQw4w9WgXcQ" []) eq_refl)
    as (_ & _ & Hshort & _).
  destruct (Hshort eq_refl) as (_ & Hrest).
  split; [apply (Hrest "dQw4w9WgXcQ" eq_refl)|apply Hbad; reflexivity].
Defined.

(** ** Style rules for web pages *)

Lemma lowerChar_idempotent c : lowerChar (lowerChar c) = lowerChar c.
Proof. destruct c as [[] [] [] [] [] [] [] []]; reflexivity. Qed.

Lemma isSpace_lowerChar c : Str.isSpace (lowerChar c) = Str.isSpace c.
Proof. destruct c as [[] [] [] [] [] [] [] []]; reflexivity. Qed.

Lemma toLowerCase_idempotent s : toLowerCase (toLowerCase s) = toLowerCase s.
Proof.
  induction s as [|c s IH]; simpl; [reflexivity|].
  now rewrite lowerChar_idempotent, IH.
Qed.


Lemma trimStart_toLowerCase s :
  Str.trimStart (toLowerCase s) = toLowerCase (Str.trimStart s).
Proof.
  induction s as [|c s IH]; simpl; [reflexivity|].
  rewrite isSpace_lowerChar. destruct (Str.isSpace c); [exact IH|reflexivity].
Qed.

Lemma trimEnd_toLowerCase s :
  Str.trimEnd (toLowerCase s) = toLowerCase (Str.trimEnd s).
Proof.
  induction s as [|c s IH]; simpl; [reflexivity|].
  rewrite IH, isSpace_lowerChar.
  destruct (Str.trimEnd s); simpl; [destruct (Str.isSpace c)|]; reflexivity.
Qed.

Lemma trim_toLowerCase s : Str.trim (toLowerCase s) = toLowerCase (Str.trim s).
Proof. unfold Str.trim. now rewrite trimStart_toLowerCase, trimEnd_toLowerCase. Qed.

Lemma nonEmpty_toLowerCase s : nonEmpty (toLowerCase s) = nonEmpty s.
Proof. destruct s; reflexivity. Qed.


Lemma string_app_assoc a b c : ((a ++ b) ++ c)%string = (a ++ b ++ c)%string.
Proof. induction a as [|x a IH]; simpl; [reflexivity|now rewrite IH]. Qed.

Lemma join_app sep x xs y ys :
  join sep ((x :: xs) ++ (y :: ys))
  = (join sep (x :: xs) ++ sep ++ join sep (y :: ys))%string.
Proof.
  revert x. induction xs as [|x' xs IH]; intros x.
  - reflexivity.
  - change (join sep ((x :: x' :: xs) ++ y :: ys))
      with (x ++ sep ++ join sep ((x' :: xs) ++ y :: ys))%string.
    rewrite IH.
    change (join sep (x :: x' :: xs)) with (x ++ sep ++ join sep (x' :: xs))%string.
    now rewrite !string_app_assoc.
Qed.

Lemma ruleApplies_blank url rule :
  Str.trim (CssRule.url rule) = EmptyString -> ruleApplies url rule = false.
Proof. intros H. unfold ruleApplies. now rewrite H. Qed.

(** X1.  A rule whose address is empty or blank is never applied, to any
    page, although every address starts with the empty string: removing
    such a rule from the list changes nothing, and a list of such rules
    gives no style at all. *)
Theorem css_blank_rules_are_ignored :
  (forall url before blankRule after,
     Str.trim (CssRule.url blankRule) = EmptyString ->
     getMatchingCssForUrl url (before ++ blankRule :: after)
     = getMatchingCssForUrl url (before ++ after)) /\
  (forall url rules,
     Forall (fun rule => Str.trim (CssRule.url rule) = EmptyString) rules ->
     getMatchingCssForUrl url rules = EmptyString).
Proof.
  split.
  - intros url before blankRule after H. unfold getMatchingCssForUrl.
    rewrite !filter_app. simpl. now rewrite (ruleApplies_blank url blankRule H).
  - intros url rules H. unfold getMatchingCssForUrl.
    replace (filter (ruleApplies url) rules) with (@nil CssRule.t); [reflexivity|].
    induction H as [|rule rest Hrule _ IH]; simpl; [reflexivity|].
    now rewrite (ruleApplies_blank url rule Hrule).
Qed.

Lemma css_blank_rules_are_ignored_witness :
  getMatchingCssForUrl "https://example.org/docs/intro" sampleRules
  = getMatchingCssForUrl "https://example.org/docs/intro"
      [CssRule.mk "https://Example.org/docs" "nav { display: none }";
       CssRule.mk " https://example.org " "body { margin: 0 }"].
Proof.
  apply (proj1 css_blank_rules_are_ignored "https://example.org/docs/intro"
           [CssRule.mk "https://Example.org/docs" "nav { display: none }"]
           (CssRule.mk "   " "body { color: red }")
           [CssRule.mk " https://example.org " "body { margin: 0 }"]).
  reflexivity.
Defined.

Lemma ruleApplies_lower url url' rule :
  toLowerCase url = toLowerCase url' ->
  ruleApplies url' (lowerRule rule) = ruleApplies url rule.
Proof.
  intros H. unfold ruleApplies, lowerRule. simpl.
  rewrite toLowerCase_idempotent, <- H.
  now rewrite trim_toLowerCase, nonEmpty_toLowerCase.
Qed.

(** X2.  Matching ignores the case of letters on both sides: two page
    addresses that differ only in case get the same style, also when the
    addresses of the rules are written in lower case. *)
Theorem css_matching_ignores_case :
  forall url url' rules,
    toLowerCase url = toLowerCase url' ->
    getMatchingCssForUrl url' (map lowerRule rules) = getMatchingCssForUrl url rules.
Proof.
  intros url url' rules H. unfold getMatchingCssForUrl. f_equal.
  induction rules as [|rule rest IH]; simpl; [reflexivity|].
  rewrite (@ruleApplies_lower url url' rule H).
  destruct (ruleApplies url rule); simpl; now rewrite IH.
Qed.

Lemma css_matching_ignores_case_witness :
  getMatchingCssForUrl "HTTPS://EXAMPLE.ORG/Docs" (map lowerRule sampleRules)
  = getMatchingCssForUrl "https://example.org/docs" sampleRules.
Proof.
  apply (css_matching_ignores_case "https://example.org/docs"
           "HTTPS://EXAMPLE.ORG/Docs" sampleRules).
  reflexivity.
Defined.

(** X3.  The style of a list of rules is put together from the styles of
    its parts, in the order of the rules: when both parts of a list have a
    matching rule the result is the two results with an empty line between
    them, and otherwise it is the result of the part that has one. *)
Theorem css_of_appended_rules :
  forall url rules1 rules2,
    getMatchingCssForUrl url (rules1 ++ rules2)
    = match filter (ruleApplies url) rules1, filter (ruleApplies url) rules2 with
      | [], _ => getMatchingCssForUrl url rules2
      | _, [] => getMatchingCssForUrl url rules1
      | _, _ => (getMatchingCssForUrl url rules1 ++ blankLine
                 ++ getMatchingCssForUrl url rules2)%string
      end.
Proof.
  intros url rules1 rules2. unfold getMatchingCssForUrl.
  rewrite filter_app, map_app.
  destruct (filter (ruleApplies url) rules1) as [|r1 m1]; [reflexivity|].
  destruct (filter (ruleApplies url) rules2) as [|r2 m2].
  - now rewrite app_nil_r.
  - cbn [map]. apply join_app.
Qed.



(** ** The text of the sentences *)

Lemma split_pieces_free sep s :
  Forall (fun piece => Str.mem sep piece = false) (Str.split sep s).
Proof.
  induction s as [|c s IH]; simpl.
  - constructor; [reflexivity|constructor].
  - destruct (Ascii.eqb c sep) eqn:E.
    + constructor; [reflexivity|exact IH].
    + destruct (Str.split sep s) as [|piece pieces]; simpl.
      * constructor; [simpl; now rewrite E|constructor].
      * inversion IH as [|? ? Hp Hrest]; subst.
        constructor; [simpl; now rewrite E, Hp|exact Hrest].
Qed.

Lemma mem_trimStart c s : Str.mem c s = false -> Str.mem c (Str.trimStart s) = false.
Proof.
  induction s as [|d s IH]; simpl; [reflexivity|].
  intros H. destruct (Str.isSpace d); [|exact H].
  apply orb_false_elim in H as [_ H]. now apply IH.
Qed.

Lemma mem_trimEnd c s : Str.mem c s = false -> Str.mem c (Str.trimEnd s) = false.
Proof.
  induction s as [|d s IH]; simpl; [reflexivity|].
  intros H. apply orb_false_elim in H as [Hd Hs]. specialize (IH Hs).
  destruct (Str.trimEnd s) eqn:E.
  - destruct (Str.isSpace d); simpl; [reflexivity|now rewrite Hd].
  - simpl in *. now rewrite Hd, IH.
Qed.

Lemma trimEnd_idempotent s : Str.trimEnd (Str.trimEnd s) = Str.trimEnd s.
Proof.
  induction s as [|c s IH]; simpl; [reflexivity|].
  destruct (Str.trimEnd s) as [|d r] eqn:E.
  - destruct (Str.isSpace c) eqn:Hc; simpl; [reflexivity|now rewrite Hc].
  - simpl in IH |- *. destruct (Str.trimEnd r) eqn:Er.
    + destruct (Str.isSpace d); [discriminate|]. injection IH as <-. reflexivity.
    + now rewrite IH.
Qed.

Lemma trimStart_trimEnd s :
  Str.trimStart s = s -> Str.trimStart (Str.trimEnd s) = Str.trimEnd s.
Proof.
  destruct s as [|c s]; [reflexivity|]. simpl.
  destruct (Str.isSpace c) eqn:Hc.
  - intros H. exfalso.
    assert (Hlen : forall t, String.length (Str.trimStart t) <= String.length t).
    { induction t as [|x t IHt]; simpl; [lia|]. destruct (Str.isSpace x); simpl; lia. }
    specialize (Hlen s). rewrite H in Hlen. simpl in Hlen. lia.
  - intros _. destruct (Str.trimEnd s); simpl; now rewrite Hc.
Qed.

Lemma trimStart_idempotent s : Str.trimStart (Str.trimStart s) = Str.trimStart s.
Proof.
  induction s as [|c s IH]; simpl; [reflexivity|].
  destruct (Str.isSpace c) eqn:Hc; [exact IH|]. simpl. now rewrite Hc.
Qed.

Lemma trim_idempotent s : Str.trim (Str.trim s) = Str.trim s.
Proof.
  unfold Str.trim.
  rewrite (@trimStart_trimEnd (Str.trimStart s)) by apply trimStart_idempotent.
  apply trimEnd_idempotent.
Qed.

(** X5.  Every sentence the splitter returns is non-empty, has no white
    space at either end (trimming it again changes nothing) and does not
    contain the vertical bar. *)
Theorem sentences_are_trimmed_and_bar_free :
  forall text,
    Forall (fun s => s <> EmptyString /\ Str.trim s = s /\ Str.mem "|" s = false)
           (splitIntoSentences text).
Proof.
  intros text. unfold splitIntoSentences. apply Forall_forall. intros s Hs.
  apply filter_In in Hs as [Hin Hne]. apply in_map_iff in Hin as (piece & <- & Hpiece).
  split; [destruct (Str.trim piece); [discriminate|congruence]|].
  split; [apply trim_idempotent|].
  pose proof (split_pieces_free "|" (Str.replaceEnds false text)) as Hfree.
  rewrite Forall_forall in Hfree. specialize (Hfree piece Hpiece).
  unfold Str.trim. now apply mem_trimEnd, mem_trimStart.
Qed.

Lemma inkOf_app a b : inkOf (a ++ b)%string = (inkOf a ++ inkOf b)%string.
Proof.
  induction a as [|c a IH]; simpl; [reflexivity|].
  destruct (Str.isSpace c || Ascii.eqb c "|"); simpl; now rewrite IH.
Qed.

Lemma inkOf_replaceEnds text : forall skip, inkOf (Str.replaceEnds skip text) = inkOf text.
Proof.
  induction text as [|c rest IH]; intros skip; simpl; [reflexivity|].
  destruct (skip && Str.isSpace c) eqn:E1.
  - apply andb_prop in E1 as [_ Hc]. rewrite Hc. simpl. apply IH.
  - destruct (Str.isTerminal c && Str.startsWithSpace rest); simpl;
      destruct (Str.isSpace c || Ascii.eqb c "|"); simpl; now rewrite IH.
Qed.

Lemma inkOf_split s : inkOf (flatten (Str.split "|" s)) = inkOf s.
Proof.
  induction s as [|c s IH]; simpl; [reflexivity|].
  destruct (Ascii.eqb c "|") eqn:E.
  - simpl. rewrite orb_true_r. exact IH.
  - rewrite orb_false_r.
    destruct (Str.split "|" s) as [|piece pieces]; simpl in *.
    + rewrite E, orb_false_r. now rewrite <- IH.
    + rewrite E, orb_false_r. now rewrite IH.
Qed.

Lemma inkOf_trimStart s : inkOf (Str.trimStart s) = inkOf s.
Proof.
  induction s as [|c s IH]; simpl; [reflexivity|].
  destruct (Str.isSpace c) eqn:Hc; simpl; [exact IH|now rewrite Hc].
Qed.

Lemma inkOf_cons c s :
  inkOf (String c s)
  = if Str.isSpace c || Ascii.eqb c "|" then inkOf s else String c (inkOf s).
Proof. reflexivity. Qed.

Lemma inkOf_trimEnd s : inkOf (Str.trimEnd s) = inkOf s.
Proof.
  induction s as [|c s IH]; [reflexivity|].
  cbn [Str.trimEnd]. rewrite (inkOf_cons c s).
  destruct (Str.trimEnd s) as [|d r] eqn:E.
  - rewrite <- IH. destruct (Str.isSpace c) eqn:Hc; [reflexivity|].
    rewrite inkOf_cons, Hc. reflexivity.
  - now rewrite inkOf_cons, IH.
Qed.

Lemma inkOf_trim s : inkOf (Str.trim s) = inkOf s.
Proof. unfold Str.trim. now rewrite inkOf_trimEnd, inkOf_trimStart. Qed.

Lemma inkOf_flatten_trim l : inkOf (flatten (map Str.trim l)) = inkOf (flatten l).
Proof.
  induction l as [|s l IH]; simpl; [reflexivity|].
  now rewrite !inkOf_app, inkOf_trim, IH.
Qed.

Lemma flatten_filter_nonEmpty l :
  flatten (filter (fun s => (0 <? String.length s)%nat) l) = flatten l.
Proof.
  induction l as [|s l IH]; simpl; [reflexivity|].
  destruct s; simpl; [exact IH|now rewrite IH].
Qed.

(** X6.  Splitting a caption into sentences loses nothing but white space
    and vertical bars: the other characters of the sentences, read in
    order, are the other characters of the caption. *)
Theorem sentences_keep_the_text :
  forall text, inkOf (flatten (splitIntoSentences text)) = inkOf text.
Proof.
  intros text. unfold splitIntoSentences.
  rewrite flatten_filter_nonEmpty, inkOf_flatten_trim, inkOf_split.
  apply inkOf_replaceEnds.
Qed.

(** ** Back references and time order of the sentences *)

Lemma SSorted_app {A} (R : A -> A -> Prop) l1 l2 :
  StronglySorted R l1 -> StronglySorted R l2 ->
  (forall x y, In x l1 -> In y l2 -> R x y) ->
  StronglySorted R (l1 ++ l2).
Proof.
  intros H1 H2 Hcross. induction H1 as [|a l Hl IH Ha]; simpl; [exact H2|].
  constructor.
  - apply IH. intros x y Hx Hy. apply Hcross; [now right|exact Hy].
  - apply Forall_app. split; [exact Ha|].
    apply Forall_forall. intros y Hy. apply Hcross; [now left|exact Hy].
Qed.

Lemma SSorted_nth {A} (R : A -> A -> Prop) l :
  StronglySorted R l ->
  forall i j x y, i < j -> nth_error l i = Some x -> nth_error l j = Some y -> R x y.
Proof.
  intros H. induction H as [|a l Hl IH Ha]; intros i j x y Hij Hi Hj.
  - destruct i; discriminate.
  - destruct j as [|j]; [lia|]. simpl in Hj. destruct i as [|i]; simpl in Hi.
    + injection Hi as <-. rewrite Forall_forall in Ha.
      apply Ha. eapply nth_error_In. exact Hj.
    + apply (IH i j x y); [lia|assumption..].
Qed.

Lemma sentencesFrom_index line k n texts : forall i,
  Forall (fun s => Sentence.originalIndex s = k /\ In (Sentence.text s) texts)
         (sentencesFrom line k n i texts).
Proof.
  induction texts as [|t rest IH]; intros i; simpl; constructor.
  - simpl. auto.
  - eapply Forall_impl; [|apply IH]. simpl. intros s [H1 H2]. auto.
Qed.

Lemma groupsFrom_index lines : forall k,
  Forall (fun s =>
            k <= Sentence.originalIndex s /\
            exists line,
              nth_error lines (Sentence.originalIndex s - k) = Some line /\
              In (Sentence.text s) (splitIntoSentences (Line.text line)))
         (List.concat (groupsFrom k lines)).
Proof.
  induction lines as [|line rest IH]; intros k; simpl; [constructor|].
  apply Forall_app. split.
  - eapply Forall_impl; [|apply sentencesFrom_index]. simpl.
    intros s [-> Hin]. split; [lia|]. exists line.
    rewrite Nat.sub_diag. auto.
  - eapply Forall_impl; [|apply (IH (S k))]. simpl.
    intros s [Hk (l & Hl & Hin)]. split; [lia|]. exists l. split; [|exact Hin].
    replace (Sentence.originalIndex s - k) with (S (Sentence.originalIndex s - S k)) by lia.
    exact Hl.
Qed.

Lemma groupsFrom_index_sorted lines : forall k,
  StronglySorted (fun a b => Sentence.originalIndex a <= Sentence.originalIndex b)
                 (List.concat (groupsFrom k lines)).
Proof.
  induction lines as [|line rest IH]; intros k; simpl; [constructor|].
  apply SSorted_app.
  - pose proof (sentencesFrom_index line k
                  (List.length (splitIntoSentences (Line.text line)))
                  (splitIntoSentences (Line.text line)) 0) as H.
    unfold sentencesOfLine. induction H as [|s l [Hs _] Hl IHl]; constructor.
    + exact IHl.
    + eapply Forall_impl; [|exact Hl]. simpl. intros s' [Hs' _]. lia.
  - apply IH.
  - intros x y Hx Hy.
    pose proof (sentencesFrom_index line k
                  (List.length (splitIntoSentences (Line.text line)))
                  (splitIntoSentences (Line.text line)) 0) as H1.
    pose proof (groupsFrom_index rest (S k)) as H2.
    rewrite Forall_forall in H1, H2.
    destruct (H1 x Hx) as [-> _]. destruct (H2 y Hy) as [Hy' _]. lia.
Qed.

(** X7.  The sentences of a transcript point back to their captions: the
    transcript has as many sentences as its captions yield together, the
    [originalIndex] of every sentence is the index of an existing caption
    whose text yields that sentence, and these indices never decrease
    along the sentence sequence. *)
Theorem sentences_refer_to_their_captions :
  forall lines,
    exists sentences,
      segmentTranscript lines = Ok sentences /\
      List.length sentences
      = list_sum (map (fun line => List.length (splitIntoSentences (Line.text line))) lines) /\
      (forall i s, nth_error sentences i = Some s ->
         exists line,
           nth_error lines (Sentence.originalIndex s) = Some line /\
           In (Sentence.text s) (splitIntoSentences (Line.text line))) /\
      (forall i j s s',
         i <= j -> nth_error sentences i = Some s -> nth_error sentences j = Some s' ->
         Sentence.originalIndex s <= Sentence.originalIndex s').
Proof.
  intros lines. exists (List.concat (groupsFrom 0 lines)).
  split; [apply segmentTranscript_spec|]. split; [|split].
  - rewrite length_concat. f_equal.
    generalize 0. induction lines as [|line rest IH]; intros k; simpl; [reflexivity|].
    rewrite IH. f_equal. unfold sentencesOfLine. apply sentencesFrom_length.
  - intros i s Hs. pose proof (groupsFrom_index lines 0) as H.
    rewrite Forall_forall in H. apply nth_error_In in Hs.
    destruct (H s Hs) as [_ (line & Hl & Hin)]. exists line.
    now rewrite Nat.sub_0_r in Hl.
  - intros i j s s' Hij Hi Hj.
    destruct (Nat.eq_dec i j) as [->|Hne]; [rewrite Hi in Hj; injection Hj as <-; lia|].
    apply (SSorted_nth (groupsFrom_index_sorted lines 0) (i := i) (j := j));
      [lia|assumption..].
Qed.
















(** ** More on the position locator *)

Lemma updateCurrentPosition_result st :
  transcriptParagraphs st <> [] ->
  updateCurrentPosition st
  = mkPlayerState (transcriptParagraphs st) (currentTimestamp st)
      (fst (findParagraph (currentTimeMs st) (transcriptParagraphs st) 0))
      (snd (findParagraph (currentTimeMs st) (transcriptParagraphs st) 0)).
Proof.
  intros Hne. unfold updateCurrentPosition, currentTimeMs.
  destruct st as [ps ts pi si]. simpl in *.
  destruct ps as [|p ps]; [congruence|]. cbn [List.length Nat.eqb].
  destruct (findParagraph (ts * 1000) (p :: ps) 0) as [np ns]. simpl.
  destruct (np =? pi)%Z eqn:Ep; simpl; destruct (ns =? si)%Z eqn:Es; simpl;
    try apply Z.eqb_eq in Ep; try apply Z.eqb_eq in Es; subst;
    unfold setCurrentSentenceIndex, setCurrentParagraphIndex; reflexivity.
Qed.

(** X10.  Updating the position a second time changes nothing, and an
    update never touches the paragraphs or the playback time: only the two
    indices are written. *)
Theorem updateCurrentPosition_is_idempotent :
  forall st,
    updateCurrentPosition (updateCurrentPosition st) = updateCurrentPosition st /\
    transcriptParagraphs (updateCurrentPosition st) = transcriptParagraphs st /\
    currentTimestamp (updateCurrentPosition st) = currentTimestamp st.
Proof.
  intros st. destruct (transcriptParagraphs st) as [|p ps] eqn:E.
  - rewrite (updateCurrentPosition_empty st E), (updateCurrentPosition_empty st E).
    auto.
  - assert (Hne : transcriptParagraphs st <> []) by congruence.
    rewrite (updateCurrentPosition_result st Hne).
    set (st' := mkPlayerState _ _ _ _).
    assert (Hne' : transcriptParagraphs st' <> []) by (simpl; congruence).
    rewrite (updateCurrentPosition_result st' Hne').
    split; [reflexivity|split; [exact E|reflexivity]].
Qed.

(** X11.  After an update on a non-empty paragraph sequence the indices
    are either both -1, and then no paragraph contains the current time,
    or the paragraph index is that of a paragraph containing the current
    time and the sentence index is either -1, and then none of that
    paragraph's sentences contains the current time, or the index of one of
    its sentences that does. *)
Theorem located_units_contain_the_time :
  forall st,
    transcriptParagraphs st <> [] ->
    let t := currentTimeMs st in
    let st' := updateCurrentPosition st in
    (currentParagraphIndex st' = (-1)%Z /\ currentSentenceIndex st' = (-1)%Z /\
     noMatch (inParagraph t) (transcriptParagraphs st)) \/
    (exists k pk,
       currentParagraphIndex st' = Z.of_nat k /\
       nth_error (transcriptParagraphs st) k = Some pk /\
       inParagraph t pk = true /\
       ((currentSentenceIndex st' = (-1)%Z /\
         noMatch (inSentence t) (Paragraph.sentences pk)) \/
        (exists j sj,
           currentSentenceIndex st' = Z.of_nat j /\
           nth_error (Paragraph.sentences pk) j = Some sj /\
           inSentence t sj = true))).
Proof.
  intros st Hne t st'.
  pose proof (updateCurrentPosition_nonempty st Hne) as E.
  unfold activeLocation in E. fold t st' in E.
  destruct (firstMatch_or_noMatch (inParagraph t) (transcriptParagraphs st))
    as [(k & pk & Hfirst)|Hnone].
  - right. exists k, pk.
    rewrite (findParagraph_first 0 Hfirst) in E. injection E as Ep Es.
    destruct Hfirst as (Hk & Hin & _).
    split; [rewrite Ep; lia|]. split; [exact Hk|]. split; [exact Hin|].
    destruct (firstMatch_or_noMatch (inSentence t) (Paragraph.sentences pk))
      as [(j & sj & Hsfirst)|Hsnone].
    + right. exists j, sj. rewrite (findSentence_first 0 Hsfirst) in Es.
      destruct Hsfirst as (Hj & Hsin & _). split; [rewrite Es; lia|]. auto.
    + left. rewrite (findSentence_none 0 Hsnone) in Es. auto.
  - left. rewrite (findParagraph_none 0 Hnone) in E. injection E as Ep Es. auto.
Qed.

Lemma located_units_contain_the_time_witness :
  exists k pk,
    currentParagraphIndex (updateCurrentPosition talkAtSix) = Z.of_nat k /\
    nth_error talkParagraphs k = Some pk /\
    inParagraph (currentTimeMs talkAtSix) pk = true.
Proof.
  destruct (@located_units_contain_the_time talkAtSix ltac:(discriminate))
    as [(Hp & _)|(k & pk & Hk & Hn & Hin & _)].
  - discriminate Hp.
  - exists k, pk. auto.
Defined.

(** ** More on the scroll animation *)

Lemma easeInOutQuad_range p :
  (0 <= p <= 1)%Q -> (0 <= easeInOutQuad p <= 1)%Q.
Proof.
  intros [Hp0 Hp1]. rewrite easeInOutQuad_formula.
  destruct (Qlt_le_dec p (1 # 2)) as [Hlt|Hge]; split; nra.
Qed.

Lemma easeInOutQuad_monotone p q :
  (0 <= p)%Q -> (p <= q)%Q -> (q <= 1)%Q -> (easeInOutQuad p <= easeInOutQuad q)%Q.
Proof.
  intros Hp Hpq Hq. rewrite !easeInOutQuad_formula.
  destruct (Qlt_le_dec p (1 # 2)) as [Hp2|Hp2];
    destruct (Qlt_le_dec q (1 # 2)) as [Hq2|Hq2]; nra.
Qed.

Lemma progressAt_range t0 u : (t0 <= u)%Q -> (0 <= progressAt t0 u <= 1)%Q.
Proof.
  intros H. unfold progressAt. split; [|apply Q.le_min_r].
  apply Q.min_glb; [|discriminate].
  apply Qle_shift_div_l; [reflexivity|]. lra.
Qed.

Lemma progressAt_monotone t0 u v : (u <= v)%Q -> (progressAt t0 u <= progressAt t0 v)%Q.
Proof.
  intros H. unfold progressAt. apply Q.min_le_compat_r.
  apply Qmult_le_compat_r; [lra|]. discriminate.
Qed.

Lemma interpolation_between a b e :
  (0 <= e <= 1)%Q -> betweenQ a b (a + (b - a) * e)%Q.
Proof.
  intros [He0 He1]. unfold betweenQ.
  destruct (Qlt_le_dec a b) as [Hab|Hba].
  - rewrite Q.min_l, Q.max_r by lra. split; nra.
  - rewrite Q.min_r, Q.max_l by lra. split; nra.
Qed.

Lemma frame_in_range a t0 u st :
  startTime st = Some t0 -> (t0 <= u)%Q ->
  betweenQ (currentScrollTop a) (currentScrollTop a + scrollDistance a)
           (frameScrollTop st) ->
  startTime (frameTick a st u) = Some t0 /\
  betweenQ (currentScrollTop a) (currentScrollTop a + scrollDistance a)
           (frameScrollTop (frameTick a st u)).
Proof.
  intros Hs Hu Hin. unfold frameTick.
  destruct (frameRequested st); [|auto].
  unfold animateScroll. rewrite Hs. simpl. split; [reflexivity|].
  pose proof (easeInOutQuad_range (progressAt_range Hu)) as He.
  pose proof (@interpolation_between (currentScrollTop a)
                (currentScrollTop a + scrollDistance a)
                (easeInOutQuad (progressAt t0 u)) He) as Hb.
  unfold betweenQ in *.
  setoid_replace (currentScrollTop a + scrollDistance a * easeInOutQuad (progressAt t0 u))%Q
    with (currentScrollTop a
          + (currentScrollTop a + scrollDistance a - currentScrollTop a)
            * easeInOutQuad (progressAt t0 u))%Q by ring.
  exact Hb.
Qed.

(** X12.  The animation never overshoots: as long as no frame is stamped
    earlier than the first one, the offset written by every frame lies
    between the offset the animation started from and its target. *)
Theorem scroll_never_overshoots :
  forall a t0 ticks,
    Forall (fun u => (t0 <= u)%Q) ticks ->
    betweenQ (currentScrollTop a) (currentScrollTop a + scrollDistance a)
             (frameScrollTop (runFrames a (animationStart a) (t0 :: ticks))).
Proof.
  intros a t0 ticks Hall.
  assert (Hfirst : startTime (frameTick a (animationStart a) t0) = Some t0 /\
                   betweenQ (currentScrollTop a) (currentScrollTop a + scrollDistance a)
                            (frameScrollTop (frameTick a (animationStart a) t0))).
  { unfold frameTick, animationStart, animateScroll. simpl. split; [reflexivity|].
    pose proof (easeInOutQuad_range (@progressAt_range t0 t0 (Qle_refl t0))) as He.
    pose proof (@interpolation_between (currentScrollTop a)
                  (currentScrollTop a + scrollDistance a)
                  (easeInOutQuad (progressAt t0 t0)) He) as Hb.
    unfold betweenQ in *.
    setoid_replace (currentScrollTop a + scrollDistance a * easeInOutQuad (progressAt t0 t0))%Q
      with (currentScrollTop a
            + (currentScrollTop a + scrollDistance a - currentScrollTop a)
              * easeInOutQuad (progressAt t0 t0))%Q by ring.
    exact Hb. }
  change (runFrames a (animationStart a) (t0 :: ticks))
    with (runFrames a (frameTick a (animationStart a) t0) ticks).
  destruct Hfirst as [Hs Hin]. revert Hs Hin.
  generalize (frameTick a (animationStart a) t0) as st.
  induction Hall as [|u rest Hu Hrest IH]; intros st Hs Hin; [exact Hin|].
  change (runFrames a st (u :: rest)) with (runFrames a (frameTick a st u) rest).
  destruct (frame_in_range a st Hs Hu Hin) as [Hs' Hin']. now apply IH.
Qed.

Lemma scroll_never_overshoots_witness :
  betweenQ 300 (300 + -300)
    (frameScrollTop
       (runFrames upwardAnimation (animationStart upwardAnimation)
          (5000%Q :: [5016%Q; 5100%Q; 5250%Q]))).
Proof.
  apply (@scroll_never_overshoots upwardAnimation 5000%Q [5016%Q; 5100%Q; 5250%Q]).
  repeat constructor; discriminate.
Defined.

Lemma frames_before_deadline a t0 early t :
  Forall (fun u => (u - t0 < duration)%Q) early ->
  runFrames a (animationStart a) (t0 :: early ++ [t])
  = mkFrameState (Some t0)
      (currentScrollTop a + scrollDistance a * easeInOutQuad (progressAt t0 t))%Q
      (Qgt_bool 1 (progressAt t0 t)).
Proof.
  intros Hearly.
  set (first := runFrames a (animationStart a) [t0]).
  assert (Hp0 : (progressAt t0 t0 < 1)%Q).
  { apply progress_before. unfold duration. lra. }
  assert (Hrun : startTime (runFrames a first early) = Some t0 /\
                 frameRequested (runFrames a first early) = true).
  { apply runFrames_running; [reflexivity| |exact Hearly].
    unfold first. simpl. now apply Qgt_bool_true. }
  destruct Hrun as [Hs Hr].
  change (t0 :: early ++ [t]) with ([t0] ++ early ++ [t]).
  rewrite !runFrames_app. fold first.
  change (runFrames a (runFrames a first early) [t])
    with (frameTick a (runFrames a first early) t).
  unfold frameTick. rewrite Hr. unfold animateScroll. now rewrite Hs.
Qed.

(** X13.  The animation only moves toward its target: while the earlier
    frames came less than 300ms after the first one, a frame at a later
    time leaves the offset no farther from the target than the frame
    before it did. *)
Theorem scroll_moves_toward_target :
  forall a t0 early u v,
    Forall (fun x => (x - t0 < 300)%Q) early ->
    (t0 <= u)%Q -> (u <= v)%Q ->
    let target := (currentScrollTop a + scrollDistance a)%Q in
    let before := runFrames a (animationStart a) (t0 :: early ++ [u]) in
    let after := runFrames a before [v] in
    (Qabs (target - frameScrollTop after) <= Qabs (target - frameScrollTop before))%Q.
Proof.
  intros a t0 early u v Hearly Hu Huv target before after.
  assert (Hb : before = mkFrameState (Some t0)
                 (currentScrollTop a + scrollDistance a * easeInOutQuad (progressAt t0 u))%Q
                 (Qgt_bool 1 (progressAt t0 u)))
    by (apply frames_before_deadline; exact Hearly).
  unfold after. change (runFrames a before [v]) with (frameTick a before v).
  unfold frameTick. rewrite Hb. cbn [frameRequested].
  destruct (Qgt_bool 1 (progressAt t0 u)); [|apply Qle_refl].
  unfold animateScroll. cbn [startTime frameScrollTop]. unfold target.
  pose proof (progressAt_range Hu) as [Hu0 Hu1].
  assert (Hv : (t0 <= v)%Q) by lra.
  pose proof (progressAt_range Hv) as [Hv0 Hv1].
  pose proof (@progressAt_monotone t0 u v Huv) as Hmono.
  pose proof (easeInOutQuad_monotone Hu0 Hmono Hv1) as He.
  pose proof (easeInOutQuad_range (conj Hu0 Hu1)) as [Heu0 Heu1].
  pose proof (easeInOutQuad_range (conj Hv0 Hv1)) as [Hev0 Hev1].
  set (eu := easeInOutQuad (progressAt t0 u)) in *.
  set (ev := easeInOutQuad (progressAt t0 v)) in *.
  setoid_replace (currentScrollTop a + scrollDistance a
                  - (currentScrollTop a + scrollDistance a * ev))%Q
    with (scrollDistance a * (1 - ev))%Q by ring.
  setoid_replace (currentScrollTop a + scrollDistance a
                  - (currentScrollTop a + scrollDistance a * eu))%Q
    with (scrollDistance a * (1 - eu))%Q by ring.
  rewrite !Qabs_Qmult.
  rewrite (Qabs_pos (1 - ev)), (Qabs_pos (1 - eu)) by lra.
  pose proof (Qabs_nonneg (scrollDistance a)) as Hd.
  nra.
Qed.

Lemma scroll_moves_toward_target_witness :
  (Qabs (300 + -300
         - frameScrollTop
             (runFrames upwardAnimation
                (runFrames upwardAnimation (animationStart upwardAnimation)
                   (5000%Q :: [5016%Q] ++ [5100%Q]))
                [5250%Q]))
   <= Qabs (300 + -300
            - frameScrollTop
                (runFrames upwardAnimation (animationStart upwardAnimation)
                   (5000%Q :: [5016%Q] ++ [5100%Q]))))%Q.
Proof.
  apply (@scroll_moves_toward_target upwardAnimation 5000%Q [5016%Q] 5100%Q 5250%Q).
  - repeat constructor.
  - discriminate.
  - discriminate.
Defined.

(** ** More on the timestamp codec *)


Lemma Qfloor_nonneg ts : (0 <= ts)%Q -> (0 <= Qfloor ts)%Z.
Proof. intros H. change 0%Z with (Qfloor 0). now apply Qfloor_resp_le. Qed.








(** ** Inserting a timestamp *)

Lemma offsetTimestamp_max t offset :
  (offsetTimestamp t offset == Qmax 0 (t - offset))%Q.
Proof.
  unfold offsetTimestamp. destruct (Qle_bool 0 (t - offset)) eqn:E.
  - apply Qle_bool_iff in E. now rewrite Q.max_r.
  - rewrite Q.max_l; [reflexivity|].
    destruct (Qlt_le_dec (t - offset) 0) as [H|H]; [lra|].
    apply Qle_bool_iff in H. congruence.
Qed.

Lemma convert_format_nonneg ts :
  (0 <= ts)%Q ->
  exists q, convertTimestampToSeconds (formatTimestamp (Some ts)) = Some q /\
            (q == inject_Z (Qfloor ts))%Q.
Proof.
  intros Hts. rewrite formatTimestamp_floor.
  apply convert_formatWhole. now apply Qfloor_nonneg.
Qed.

(** X16.  The insert command inserts nothing for an undefined time or at
    time zero.  Otherwise the inserted text, parsed back as a click on it
    does, is the whole number of seconds of max(0, time - offset); it is
    never negative, and the [t] parameter written into the link is the
    same number. *)
Theorem inserted_timestamp_seeks_to_offset_time :
  (forall offset, insertedTimestamp None offset = None) /\
  (forall t offset, (t == 0)%Q -> insertedTimestamp (Some t) offset = None) /\
  (forall t offset,
     ~ (t == 0)%Q ->
     exists text q,
       insertedTimestamp (Some t) offset = Some text /\
       convertTimestampToSeconds text = Some q /\
       (q == inject_Z (Qfloor (Qmax 0 (t - offset))))%Q /\
       (0 <= q)%Q /\
       Number_of_string (insertedLinkSeconds t offset)
       = Some (inject_Z (Qfloor (Qmax 0 (t - offset))))).
Proof.
  split; [reflexivity|]. split.
  - intros t offset Ht. unfold insertedTimestamp.
    apply Qeq_bool_iff in Ht. now rewrite Ht.
  - intros t offset Ht. unfold insertedTimestamp.
    destruct (Qeq_bool t 0) eqn:E; [apply Qeq_bool_iff in E; contradiction|].
    assert (Hnn : (0 <= offsetTimestamp t offset)%Q)
      by (rewrite offsetTimestamp_max; apply Q.le_max_l).
    destruct (convert_format_nonneg Hnn)
      as (q & Hq & Hval).
    exists (formatTimestamp (Some (offsetTimestamp t offset))), q.
    assert (HF : Qfloor (offsetTimestamp t offset) = Qfloor (Qmax 0 (t - offset)))
      by (apply Qfloor_comp, offsetTimestamp_max).
    split; [reflexivity|]. split; [exact Hq|].
    split; [now rewrite Hval, HF|]. split.
    + rewrite Hval. change 0%Q with (inject_Z 0). rewrite <- Zle_Qle.
      now apply Qfloor_nonneg.
    + unfold insertedLinkSeconds. rewrite <- HF.
      apply Number_of_numberToString. now apply Qfloor_nonneg.
Qed.

Lemma inserted_timestamp_seeks_to_offset_time_witness :
  exists text q,
    insertedTimestamp (Some (251 # 2)%Q) 6 = Some text /\
    convertTimestampToSeconds text = Some q /\
    (q == inject_Z (Qfloor (Qmax 0 ((251 # 2) - 6))))%Q /\
    (0 <= q)%Q /\
    Number_of_string (insertedLinkSeconds (251 # 2)%Q 6)
    = Some (inject_Z (Qfloor (Qmax 0 ((251 # 2) - 6)))).
Proof.
  apply (proj2 (proj2 inserted_timestamp_seeks_to_offset_time) (251 # 2)%Q 6%Q).
  discriminate.
Defined.

(** ** Playback speed *)

Lemma indexOf_from_range x l : forall i,
  indexOf_from x l i = (-1)%Z \/
  (i <= indexOf_from x l i < i + Z.of_nat (List.length l))%Z.
Proof.
  induction l as [|y rest IH]; intros i; simpl; [now left|].
  destruct (Qeq_bool y x); [right; lia|].
  destruct (IH (i + 1)%Z) as [H|H]; [now left|right; lia].
Qed.

Lemma arrayAt_in_range l i :
  (0 <= i < Z.of_nat (List.length l))%Z -> exists r, arrayAt l i = Some r /\ In r l.
Proof.
  intros H. unfold arrayAt. replace (i <? 0)%Z with false by (symmetry; apply Z.ltb_ge; lia).
  destruct (nth_error l (Z.to_nat i)) as [r|] eqn:E.
  - exists r. split; [reflexivity|]. eapply nth_error_In. exact E.
  - apply nth_error_None in E. lia.
Qed.

(** X17.  When the player offers at least one rate, both speed commands
    set one of the offered rates, whatever the current rate is; a current
    rate that is not among the offered ones makes both commands set the
    first offered rate.  When no rate is offered both set undefined. *)
Theorem speed_commands_stay_within_offered_rates :
  (forall rates current,
     rates <> [] ->
     (exists r, speedUpRate rates current = Some r /\ In r rates) /\
     (exists r, slowDownRate rates current = Some r /\ In r rates)) /\
  (forall rates current,
     indexOf current rates = (-1)%Z ->
     speedUpRate rates current = nth_error rates 0 /\
     slowDownRate rates current = nth_error rates 0) /\
  (forall current, speedUpRate [] current = None /\ slowDownRate [] current = None).
Proof.
  split; [|split].
  - intros rates current Hne.
    assert (Hlen : (0 < Z.of_nat (List.length rates))%Z)
      by (destruct rates; [congruence|simpl; lia]).
    unfold speedUpRate, slowDownRate.
    destruct (indexOf_from_range current rates 0) as [H|H];
      fold (indexOf current rates) in H.
    + rewrite H. simpl.
      replace (0 <? Z.of_nat (List.length rates))%Z with true
        by (symmetry; apply Z.ltb_lt; lia).
      split; apply arrayAt_in_range; lia.
    + split.
      * destruct (indexOf current rates + 1 <? Z.of_nat (List.length rates))%Z eqn:E;
          [apply Z.ltb_lt in E|]; apply arrayAt_in_range; lia.
      * destruct (0 <=? indexOf current rates - 1)%Z eqn:E;
          [apply Z.leb_le in E|]; apply arrayAt_in_range; lia.
  - intros rates current H. unfold speedUpRate, slowDownRate. rewrite H. simpl.
    destruct rates as [|r rest]; [split; reflexivity|].
    replace (0 <? Z.of_nat (List.length (r :: rest)))%Z with true
      by (symmetry; apply Z.ltb_lt; simpl; lia).
    split; reflexivity.
  - intros current. split; reflexivity.
Qed.

Lemma speed_commands_stay_within_offered_rates_witness :
  (exists r, speedUpRate playerRates (11 # 10)%Q = Some r /\ In r playerRates) /\
  (exists r, slowDownRate playerRates (11 # 10)%Q = Some r /\ In r playerRates).
Proof.
  apply (proj1 speed_commands_stay_within_offered_rates playerRates (11 # 10)%Q).
  discriminate.
Defined.

Lemma indexOf_from_sorted rates : forall k r i,
  StronglySorted Qlt rates ->
  nth_error rates k = Some r ->
  indexOf_from r rates i = (i + Z.of_nat k)%Z.
Proof.
  induction rates as [|y rest IH]; intros k r i Hsorted Hk.
  - destruct k; discriminate.
  - apply StronglySorted_inv in Hsorted as [Hrest Hy]. simpl.
    destruct k as [|k]; simpl in Hk.
    + injection Hk as ->.
      replace (Qeq_bool r r) with true by (symmetry; apply Qeq_bool_iff; reflexivity).
      lia.
    + rewrite Forall_forall in Hy.
      pose proof (Hy r (nth_error_In _ _ Hk)) as Hlt.
      destruct (Qeq_bool y r) eqn:E; [apply Qeq_bool_iff in E; lra|].
      rewrite (IH k r (i + 1)%Z Hrest Hk). lia.
Qed.

(** X18.  When the offered rates are strictly increasing and the current
    rate is the k-th of them, speed-up sets the next higher rate, or the
    same rate when it is the highest, and slow-down sets the next lower
    rate, or the same rate when it is the lowest; slowing down after a
    speed-up that changed the rate gives the rate back. *)
Theorem speed_commands_step_through_rates :
  forall rates k r,
    StronglySorted Qlt rates ->
    nth_error rates k = Some r ->
    speedUpRate rates r
    = (if (S k <? List.length rates)%nat then nth_error rates (S k) else Some r) /\
    slowDownRate rates r = nth_error rates (Nat.pred k) /\
    (forall r', nth_error rates (S k) = Some r' ->
       (r < r')%Q /\ speedUpRate rates r = Some r' /\ slowDownRate rates r' = Some r).
Proof.
  intros rates k r Hsorted Hk.
  assert (Hlen : k < List.length rates) by (apply nth_error_Some; congruence).
  assert (Hidx : forall j x, nth_error rates j = Some x -> indexOf x rates = Z.of_nat j).
  { intros j x Hj. unfold indexOf. now rewrite (indexOf_from_sorted j 0 Hsorted Hj). }
  assert (Hup : speedUpRate rates r
                = if (S k <? List.length rates)%nat then nth_error rates (S k) else Some r).
  { unfold speedUpRate. rewrite (Hidx k r Hk).
    destruct (S k <? List.length rates)%nat eqn:E.
    - apply Nat.ltb_lt in E.
      replace (Z.of_nat k + 1 <? Z.of_nat (List.length rates))%Z with true
        by (symmetry; apply Z.ltb_lt; lia).
      unfold arrayAt.
      replace (Z.of_nat k + 1 <? 0)%Z with false by (symmetry; apply Z.ltb_ge; lia).
      f_equal. lia.
    - apply Nat.ltb_ge in E.
      replace (Z.of_nat k + 1 <? Z.of_nat (List.length rates))%Z with false
        by (symmetry; apply Z.ltb_ge; lia).
      unfold arrayAt.
      replace (Z.of_nat k <? 0)%Z with false by (symmetry; apply Z.ltb_ge; lia).
      now rewrite Nat2Z.id. }
  assert (Hdown : forall j x, nth_error rates j = Some x ->
                    slowDownRate rates x = nth_error rates (Nat.pred j)).
  { intros j x Hj. unfold slowDownRate. rewrite (Hidx j x Hj). unfold arrayAt.
    destruct j as [|j].
    - reflexivity.
    - replace (0 <=? Z.of_nat (S j) - 1)%Z with true by (symmetry; apply Z.leb_le; lia).
      replace (Z.of_nat (S j) - 1 <? 0)%Z with false by (symmetry; apply Z.ltb_ge; lia).
      f_equal. lia. }
  split; [exact Hup|]. split; [now apply Hdown|].
  intros r' Hr'.
  assert (Hlen' : S k < List.length rates) by (apply nth_error_Some; congruence).
  split; [apply (SSorted_nth Hsorted (i := k) (j := S k)); [lia|assumption..]|].
  split.
  - rewrite Hup. apply Nat.ltb_lt in Hlen'. now rewrite Hlen'.
  - rewrite (Hdown (S k) r' Hr'). exact Hk.
Qed.

Lemma speed_commands_step_through_rates_witness :
  speedUpRate playerRates 1 = Some (5 # 4)%Q /\
  slowDownRate playerRates (5 # 4) = Some 1%Q.
Proof.
  assert (Hsorted : StronglySorted Qlt playerRates)
    by (repeat constructor).
  destruct (@speed_commands_step_through_rates playerRates 3 1%Q Hsorted eq_refl)
    as (_ & _ & H).
  destruct (H (5 # 4)%Q eq_refl) as (_ & Hup & Hdown). split; assumption.
Defined.

(** ** Polling the playback time *)

Lemma remove_length_NoDup h l :
  NoDup l -> List.length l <= S (List.length (List.remove Z.eq_dec h l)).
Proof.
  intros Hnd. induction Hnd as [|x l Hx Hl IH]; simpl; [lia|].
  destruct (Z.eq_dec h x) as [->|Hne]; simpl; [|lia].
  rewrite notin_remove by exact Hx. lia.
Qed.

Lemma remove_length_le h l : List.length (List.remove Z.eq_dec h l) <= List.length l.
Proof.
  induction l as [|x l IH]; simpl; [lia|].
  destruct (Z.eq_dec h x); simpl; lia.
Qed.

Lemma remove_NoDup h l : NoDup l -> NoDup (List.remove Z.eq_dec h l).
Proof.
  intros Hnd. induction Hnd as [|x l Hx Hl IH]; simpl; [constructor|].
  destruct (Z.eq_dec h x); [exact IH|]. constructor; [|exact IH].
  intros Hin. apply in_remove in Hin as [Hin _]. contradiction.
Qed.

Lemma remove_Forall (P : Z -> Prop) h l : Forall P l -> Forall P (List.remove Z.eq_dec h l).
Proof.
  intros H. apply Forall_forall. intros x Hx. apply in_remove in Hx as [Hx _].
  rewrite Forall_forall in H. now apply H.
Qed.

Lemma clearInterval_facts ref l :
  NoDup l ->
  NoDup (clearInterval ref l) /\
  List.length (clearInterval ref l) <= List.length l /\
  List.length l <= S (List.length (clearInterval ref l)) /\
  forall P : Z -> Prop, Forall P l -> Forall P (clearInterval ref l).
Proof.
  intros Hnd. destruct ref as [h|]; simpl.
  - repeat split; [now apply remove_NoDup|apply remove_length_le|
                   now apply remove_length_NoDup|intros P; apply remove_Forall].
  - repeat split; auto.
Qed.

(** One notification: the invariant is kept, a "playing" notification
    starts exactly one timer and any other one stops at most one. *)
Lemma onStateChange_step st e :
  pollingInvariant st ->
  pollingInvariant (onStateChange st e) /\
  List.length (activeIntervals (onStateChange st e)) + stops [e]
  >= List.length (activeIntervals st) + plays [e] /\
  List.length (activeIntervals (onStateChange st e))
  <= List.length (activeIntervals st) + plays [e].
Proof.
  intros (Hnd & Hall & Hnext). unfold onStateChange, plays, stops.
  destruct (Z.eqb_spec e 1) as [->|H1].
  - simpl. repeat split; simpl; try lia.
    + constructor; [|exact Hnd]. intros Hin. rewrite Forall_forall in Hall.
      specialize (Hall _ Hin). lia.
    + constructor; [lia|]. eapply Forall_impl; [|exact Hall]. simpl. lia.
  - cbn [count_occ].
    destruct (Z.eq_dec e 1) as [|_]; [contradiction|].
    destruct (clearInterval_facts (intervalRef st) Hnd) as (Hnd' & Hle & Hge & Hf).
    destruct (Z.eqb_spec e 2) as [->|H2]; [|destruct (Z.eqb_spec e 0) as [->|H0]];
      simpl; destruct (refIsSet (intervalRef st)); simpl;
      repeat split; try assumption; try (now apply Hf); try lia.
    all: destruct (Z.eq_dec e 2); destruct (Z.eq_dec e 0); simpl; lia.
Qed.

Lemma plays_cons e events : plays (e :: events) = plays [e] + plays events.
Proof. unfold plays. simpl. destruct (Z.eq_dec e 1); lia. Qed.

Lemma stops_cons e events : stops (e :: events) = stops [e] + stops events.
Proof. unfold stops. simpl. destruct (Z.eq_dec e 2); destruct (Z.eq_dec e 0); lia. Qed.

Lemma notifications_from st events :
  pollingInvariant st ->
  pollingInvariant (fold_left onStateChange events st) /\
  List.length (activeIntervals (fold_left onStateChange events st)) + stops events
  >= List.length (activeIntervals st) + plays events /\
  List.length (activeIntervals (fold_left onStateChange events st))
  <= List.length (activeIntervals st) + plays events.
Proof.
  revert st. induction events as [|e rest IH]; intros st Hinv.
  - simpl. unfold plays, stops. simpl. split; [exact Hinv|split; lia].
  - destruct (onStateChange_step e Hinv) as (Hinv' & Hge & Hle).
    destruct (IH _ Hinv') as (Hinv'' & Hge' & Hle').
    cbn [fold_left]. rewrite (plays_cons e rest), (stops_cons e rest).
    split; [exact Hinv''|split; lia].
Qed.

Lemma initialPolling_invariant : pollingInvariant initialPolling.
Proof. split; [constructor|split; [constructor|reflexivity]]. Qed.

(** X19.  A "paused" or "ended" notification stops only the timer started
    last, and unmounting stops at most one more: after any sequence of
    notifications at least (plays - stops) timers keep running, at least
    (plays - stops - 1) of them survive the unmounting, and never more than
    (plays) run.  So two "playing" notifications without a pause between
    them leave a timer that nothing stops. *)
Theorem timers_outlive_unpaired_plays :
  forall events,
    plays events
    <= List.length (activeIntervals (notify events)) + stops events /\
    plays events
    <= S (List.length (activeIntervals (unmountPolling (notify events))) + stops events) /\
    List.length (activeIntervals (notify events)) <= plays events /\
    NoDup (activeIntervals (notify events)).
Proof.
  intros events. unfold notify.
  destruct (notifications_from events initialPolling_invariant)
    as ((Hnd & _ & _) & Hge & Hle).
  simpl in Hge, Hle.
  repeat split; [lia| |lia|exact Hnd].
  unfold unmountPolling.
  destruct (refIsSet (intervalRef (fold_left onStateChange events initialPolling)));
    [|lia].
  simpl.
  destruct (clearInterval_facts
              (intervalRef (fold_left onStateChange events initialPolling)) Hnd)
    as (_ & _ & Hge' & _).
  lia.
Qed.

Lemma remove_single h : List.remove Z.eq_dec h [h] = [].
Proof. simpl. destruct (Z.eq_dec h h); [reflexivity|contradiction]. Qed.

Lemma clearInterval_nil ref : clearInterval ref [] = [].
Proof. destruct ref; reflexivity. Qed.

Lemma paired_notifications events : forall playing st,
  pairedState playing st ->
  wellPaired playing events ->
  pairedState (playingAfter playing events) (fold_left onStateChange events st).
Proof.
  induction events as [|e rest IH]; intros playing st Hst Hwp; [exact Hst|].
  cbn [fold_left wellPaired playingAfter] in *.
  destruct Hst as (Hnext & Hact).
  destruct (Z.eqb_spec e 1) as [->|H1].
  - destruct Hwp as (-> & Hwp). apply IH; [|exact Hwp].
    unfold onStateChange, pairedState. simpl. split; [lia|].
    exists (nextHandle st). rewrite Hact. repeat split. lia.
  - destruct ((e =? 2)%Z || (e =? 0)%Z) eqn:Hstop.
    + apply IH; [|exact Hwp]. unfold onStateChange.
      replace (e =? 1)%Z with false by (symmetry; now apply Z.eqb_neq).
      rewrite Hstop. unfold pairedState. simpl.
      destruct playing.
      * destruct Hact as (h & Ha & Hr & Hh). rewrite Hr. simpl.
        replace (h =? 0)%Z with false by (symmetry; now apply Z.eqb_neq).
        simpl. split; [exact Hnext|]. rewrite Ha. apply remove_single.
      * destruct (refIsSet (intervalRef st)); simpl; (split; [exact Hnext|]);
          rewrite Hact; [apply clearInterval_nil|reflexivity].
    + apply IH; [|exact Hwp]. unfold onStateChange.
      replace (e =? 1)%Z with false by (symmetry; now apply Z.eqb_neq).
      rewrite Hstop. simpl. split; assumption.
Qed.

(** X20.  When no "playing" notification arrives while the player is
    already playing, exactly one timer runs while the player plays, the one
    [intervalRef] holds, none runs once it is paused or has ended, and
    unmounting leaves no timer running. *)
Theorem paired_notifications_leave_no_timer :
  forall events,
    wellPaired false events ->
    (if playingAfter false events
     then exists h, activeIntervals (notify events) = [h] /\
                    intervalRef (notify events) = Some h
     else activeIntervals (notify events) = []) /\
    activeIntervals (unmountPolling (notify events)) = [].
Proof.
  intros events Hwp. unfold notify.
  assert (Hinit : pairedState false initialPolling) by (split; reflexivity).
  destruct (paired_notifications events Hinit Hwp) as (_ & Hact).
  unfold unmountPolling.
  destruct (playingAfter false events).
  - destruct Hact as (h & Ha & Hr & Hh). split; [exists h; auto|].
    rewrite Hr. simpl.
    replace (h =? 0)%Z with false by (symmetry; now apply Z.eqb_neq).
    simpl. rewrite Ha. apply remove_single.
  - split; [exact Hact|].
    destruct (refIsSet (intervalRef (fold_left onStateChange events initialPolling)));
      simpl; rewrite Hact; [apply clearInterval_nil|reflexivity].
Qed.

Lemma paired_notifications_leave_no_timer_witness :
  activeIntervals (notify [(-1)%Z; 3%Z; 1%Z; 2%Z; 1%Z; 3%Z; 0%Z]) = [].
Proof.
  apply (paired_notifications_leave_no_timer [(-1)%Z; 3%Z; 1%Z; 2%Z; 1%Z; 3%Z; 0%Z]).
  simpl. auto.
Defined.

(** ** Options of a web view *)

Lemma orString_kept s fallback :
  s <> EmptyString -> WebViewOption.orString (Some s) fallback = s.
Proof. intros H. destruct s; [congruence|reflexivity]. Qed.

Lemma orString_nonempty value fallback :
  fallback <> EmptyString -> WebViewOption.orString value fallback <> EmptyString.
Proof.
  intros H. unfold WebViewOption.orString.
  destruct value as [[|c s]|]; simpl; congruence.
Qed.

Lemma orString_again value fallback fallback' :
  fallback <> EmptyString \/ fallback = fallback' ->
  WebViewOption.orString (Some (WebViewOption.orString value fallback)) fallback'
  = WebViewOption.orString value fallback.
Proof.
  intros H. unfold WebViewOption.orString at 1.
  destruct (WebViewOption.orString value fallback) as [|c s] eqn:E; [|reflexivity].
  simpl. destruct H as [H| ->].
  - exfalso. now apply (orString_nonempty value H).
  - destruct (string_dec fallback' EmptyString) as [->|Hne]; [reflexivity|].
    exfalso. now apply (orString_nonempty value Hne).
Qed.

Lemma orNumber_nonzero value fallback :
  ~ (fallback == 0)%Q -> ~ (WebViewOption.orNumber value fallback == 0)%Q.
Proof.
  intros H. unfold WebViewOption.orNumber.
  destruct value as [z|]; [|exact H].
  destruct (Qeq_bool z 0) eqn:E; [exact H|].
  intros Hz. apply Qeq_bool_iff in Hz. congruence.
Qed.

(** X21.  A normalized web-view option never has an empty title, address
    or profile key, nor a zoom factor of zero (a zoom of 0 is replaced by
    1 and an empty address by about:blank).  Normalizing is idempotent:
    normalizing the result again returns it unchanged, provided its id is
    not empty, whatever random id the second call draws. *)
Theorem normalized_options_are_complete_and_stable :
  forall randomId option,
    let o := WebViewOption.normalize randomId option in
    WebViewOption.title o <> EmptyString /\
    WebViewOption.url o <> EmptyString /\
    WebViewOption.profileKey o <> EmptyString /\
    ~ (WebViewOption.zoomFactor o == 0)%Q /\
    (WebViewOption.id o <> EmptyString ->
     forall randomId',
       WebViewOption.normalize randomId' (WebViewOption.asPartial o) = o).
Proof.
  intros randomId option o. unfold o, WebViewOption.normalize.
  cbn [WebViewOption.id
       WebViewOption.title
       WebViewOption.url
       WebViewOption.profileKey
       WebViewOption.position
       WebViewOption.userAgent
       WebViewOption.zoomFactor
       WebViewOption.css
       WebViewOption.js
       WebViewOption.p_id
       WebViewOption.p_title
       WebViewOption.p_url
       WebViewOption.p_profileKey
       WebViewOption.p_position
       WebViewOption.p_userAgent
       WebViewOption.p_zoomFactor
       WebViewOption.p_css
       WebViewOption.p_js].
  repeat split; try (apply orString_nonempty; discriminate).
  - apply orNumber_nonzero. discriminate.
  - intros Hid randomId'. unfold WebViewOption.asPartial.
    cbn [WebViewOption.id
         WebViewOption.title
         WebViewOption.url
         WebViewOption.profileKey
         WebViewOption.position
         WebViewOption.userAgent
         WebViewOption.zoomFactor
         WebViewOption.css
         WebViewOption.js
         WebViewOption.p_id
         WebViewOption.p_title
         WebViewOption.p_url
         WebViewOption.p_profileKey
         WebViewOption.p_position
         WebViewOption.p_userAgent
         WebViewOption.p_zoomFactor
         WebViewOption.p_css
         WebViewOption.p_js].
    rewrite (orString_kept randomId' Hid).
    rewrite !orString_again by (first [left; discriminate|right; reflexivity]).
    f_equal.
    pose proof (@orNumber_nonzero (WebViewOption.p_zoomFactor option) 1 ltac:(discriminate))
      as Hz.
    unfold WebViewOption.orNumber at 1.
    destruct (Qeq_bool (WebViewOption.orNumber (WebViewOption.p_zoomFactor option) 1) 0)
      eqn:E; [|reflexivity].
    apply Qeq_bool_iff in E. contradiction.
Qed.

(** ** What the media frame renders *)

